(** * SQLAgentic: the generate / validate / execute / heal loop of [src/sql_agent.py]

    A shallow embedding of [SQLAgent] (and of [DatabaseManager.execute_query],
    which it drives) together with the properties of the retry loop, of the
    safety validator and of the response extraction.

    Text is modelled as [string] over 7-bit ASCII: [str.upper] is the ASCII
    upper-casing, the regular-expression class [\w] is [A-Za-z0-9_], and
    [\s] / [str.strip] use the ASCII white space of Python's [str.isspace]
    (codes 9-13, 28-31 and 32).  On text with other characters Python's
    classes are those of Unicode and the definitions below do not follow
    them, so the theorems that characterise the validator, the extraction,
    the monitor's entries and the commands by the characters of a text are
    stated for texts that satisfy [Str.isascii].  Console output ([print])
    is not modelled. *)

From Stdlib Require Import String Ascii List ZArith Lia Bool Arith.
From Stdlib Require Import DecimalString.
Import ListNotations.

Set Warnings "-register-all".

Local Open Scope list_scope.
Local Open Scope string_scope.

(* ------------------------------------------------------------------------- *)
(** ** Characters *)
(* ------------------------------------------------------------------------- *)

Module Char.

Definition code (c : ascii) : nat := nat_of_ascii c.

Definition between (lo hi : nat) (c : ascii) : bool :=
  ((lo <=? code c) && (code c <=? hi))%nat.

Definition is_lower (c : ascii) : bool := between 97 122 c.
Definition is_upper (c : ascii) : bool := between 65 90 c.
Definition is_digit (c : ascii) : bool := between 48 57 c.

(** A character of 7-bit ASCII. *)
Definition is_ascii (c : ascii) : bool := (code c <? 128)%nat.

(** [str.isspace] / [\s] on ASCII. *)
Definition is_space (c : ascii) : bool :=
  between 9 13 c || between 28 32 c.

(** [\w] on ASCII. *)
Definition is_word (c : ascii) : bool :=
  is_lower c || is_upper c || is_digit c || (code c =? 95)%nat.

(** One character of [str.upper]. *)
Definition upper (c : ascii) : ascii :=
  if is_lower c then ascii_of_nat (code c - 32) else c.

(** Equality of characters under [re.IGNORECASE]. *)
Definition eqb_nocase (a b : ascii) : bool :=
  Ascii.eqb (upper a) (upper b).

End Char.

(* ------------------------------------------------------------------------- *)
(** ** The [str] methods the agent uses *)
(* ------------------------------------------------------------------------- *)

Module Str.

(** [s.isascii()] *)
Fixpoint isascii (s : string) : bool :=
  match s with
  | EmptyString => true
  | String c s' => Char.is_ascii c && isascii s'
  end.

(** [s.upper()] *)
Fixpoint upper (s : string) : string :=
  match s with
  | EmptyString => EmptyString
  | String c s' => String (Char.upper c) (upper s')
  end.

(** [s.lstrip()] *)
Fixpoint lstrip (s : string) : string :=
  match s with
  | EmptyString => EmptyString
  | String c s' => if Char.is_space c then lstrip s' else s
  end.

(** [s.rstrip()] *)
Fixpoint rstrip (s : string) : string :=
  match s with
  | EmptyString => EmptyString
  | String c s' =>
      match rstrip s' with
      | EmptyString => if Char.is_space c then EmptyString else String c EmptyString
      | r => String c r
      end
  end.

(** [s.strip()] *)
Definition strip (s : string) : string := rstrip (lstrip s).

(** [s.startswith(p)] *)
Fixpoint startswith (p s : string) : bool :=
  match p, s with
  | EmptyString, _ => true
  | String a p', String b s' => Ascii.eqb a b && startswith p' s'
  | String _ _, EmptyString => false
  end.

(** [sep in s] *)
Fixpoint contains (sep s : string) : bool :=
  startswith sep s ||
  match s with
  | EmptyString => false
  | String _ s' => contains sep s'
  end.

(** [s.split(sep)[0]]: the text before the first occurrence of [sep], the
    whole of [s] when there is none. *)
Fixpoint split_head (sep s : string) : string :=
  if startswith sep s then EmptyString
  else match s with
       | EmptyString => EmptyString
       | String c s' => String c (split_head sep s')
       end.

(** [s[n:]] *)
Fixpoint drop (n : nat) (s : string) : string :=
  match n, s with
  | O, _ => s
  | S n', String _ s' => drop n' s'
  | S _, EmptyString => EmptyString
  end.

(** [str(n)] / the rendering of an [int] inside an f-string. *)
Definition of_Z (n : Z) : string := NilZero.string_of_int (Z.to_int n).

End Str.

(* ------------------------------------------------------------------------- *)
(** ** Exceptions and Python values *)
(* ------------------------------------------------------------------------- *)

(** The two exception classes the agent distinguishes; each carries [str(e)]. *)
Inductive exn : Type :=
| SafetyViolationError (msg : string)
| Exception (msg : string).

Definition str_of_exn (e : exn) : string :=
  match e with
  | SafetyViolationError m => m
  | Exception m => m
  end.

(** A [pandas.DataFrame], as far as the agent is concerned: named columns and
    rows. *)
Record DataFrame : Type := mkDataFrame {
  columns : list string;
  rows : list (list string)
}.

(** What a call can hand back to Python code. *)
Inductive pyval : Type :=
| PyNone
| PyStr (s : string)
| PyInt (n : Z)
| PyDF (df : DataFrame)
| PyTuple (items : list pyval).

(* ------------------------------------------------------------------------- *)
(** ** The safety validator *)
(* ------------------------------------------------------------------------- *)

Module Re.

(** [\b] between two neighbouring positions: [before] and [after] tell whether
    there is a [\w] character on each side (none at either end of the text). *)
Definition word_boundary (before after : bool) : bool := xorb before after.

Definition head_is_word (s : string) : bool :=
  match s with
  | EmptyString => false
  | String c _ => Char.is_word c
  end.

Fixpoint last_is_word (before : bool) (s : string) : bool :=
  match s with
  | EmptyString => before
  | String c s' => last_is_word (Char.is_word c) s'
  end.

(** The pattern [\b lit \b] tried at one position of the text; [before] tells
    whether the character in front of that position is a [\w]. *)
Definition match_word_here (before : bool) (lit s : string) : bool :=
  word_boundary before (head_is_word s)
  && Str.startswith lit s
  && word_boundary (last_is_word before lit)
                   (head_is_word (Str.drop (String.length lit) s)).

(** [re.search(r'\b' + lit + r'\b', s)] as a truth value, scanning the
    positions of [s] from the left. *)
Fixpoint search_word_from (before : bool) (lit s : string) : bool :=
  match_word_here before lit s ||
  match s with
  | EmptyString => false
  | String c s' => search_word_from (Char.is_word c) lit s'
  end.

Definition search_word (lit s : string) : bool := search_word_from false lit s.

End Re.

Definition DESTRUCTIVE_KEYWORDS : list string :=
  ["DROP"; "DELETE"; "UPDATE"; "TRUNCATE"; "ALTER"; "INSERT";
   "CREATE"; "GRANT"; "REVOKE"; "EXEC"; "EXECUTE"].

Definition safety_message (keyword : string) : string :=
  "🚫 SAFETY VIOLATION: Query contains destructive keyword '" ++ keyword ++ "'. "
  ++ "This agent is read-only and cannot execute write operations.".

(** The [for keyword in ...] loop of [validate_sql_safety]; [scanned] counts
    the [re.search] calls made so far. *)
Fixpoint validate_loop (keywords : list string) (sql_upper : string)
         (scanned : nat) : (exn + bool) * nat :=
  match keywords with
  | [] => (inr true, scanned)
  | keyword :: rest =>
      if Re.search_word keyword sql_upper
      then (inl (SafetyViolationError (safety_message keyword)), S scanned)
      else validate_loop rest sql_upper (S scanned)
  end.

(** [validate_sql_safety], with the number of patterns it tried. *)
Definition validate_sql_safety_scan (sql : string) : (exn + bool) * nat :=
  let sql_upper := Str.upper sql in
  validate_loop DESTRUCTIVE_KEYWORDS sql_upper 0.

Definition validate_sql_safety (sql : string) : exn + bool :=
  fst (validate_sql_safety_scan sql).

(* ------------------------------------------------------------------------- *)
(** ** Prompts *)
(* ------------------------------------------------------------------------- *)

(** An f-string field holding an optional text: [None] prints as [None]. *)
Definition fmt (o : option string) : string :=
  match o with
  | Some s => s
  | None => "None"
  end.

(** Truth value of an [Optional[str]]: [None] and the empty text are false. *)
Definition truthy (o : option string) : bool :=
  match o with
  | Some (String _ _) => true
  | _ => false
  end.

Definition SYSTEM_PROMPT : string :=
  "You are a SQL Server expert. Generate only valid T-SQL queries. Return ONLY the SQL code without explanations or markdown formatting.".

Definition _build_initial_prompt (schema_context : option string)
           (user_query : string) : string :=
  "Given the database schema below, write a SQL Server query to answer the user's question.

DATABASE SCHEMA:
" ++ fmt schema_context ++ "

USER QUESTION:
" ++ user_query ++ "

RULES:
- Return ONLY the SQL query, no explanations
- Use proper SQL Server T-SQL syntax
- Use TOP instead of LIMIT for row limiting
- Always use table aliases for clarity
- Use square brackets for table/column names with spaces
- Return only SELECT queries (no INSERT, UPDATE, DELETE, DROP, etc.)
- Include appropriate WHERE, JOIN, GROUP BY, ORDER BY clauses as needed

SQL Query:".

Definition _build_healing_prompt (schema_context : option string)
           (user_query previous_sql error_message : string) : string :=
  "The previous SQL query failed. Please fix it based on the error message.

DATABASE SCHEMA:
" ++ fmt schema_context ++ "

ORIGINAL USER QUESTION:
" ++ user_query ++ "

PREVIOUS SQL QUERY (FAILED):
" ++ previous_sql ++ "

ERROR MESSAGE:
" ++ error_message ++ "

Please generate a corrected SQL query that fixes this error. Return ONLY the corrected SQL query.

Corrected SQL Query:".

(** The text of the exception raised when the last attempt has failed. *)
Definition exhausted_message (max_retries : Z) (error_message : string) : string :=
  "Failed after " ++ Str.of_Z max_retries ++ " attempts. Last error: "
  ++ error_message.

(** The [if previous_sql and error_message] choice of [generate_safe_sql]. *)
Definition build_prompt (schema_context : option string) (user_query : string)
           (previous_sql error_message : option string) : string :=
  match previous_sql, error_message with
  | Some p, Some e =>
      if truthy previous_sql && truthy error_message
      then _build_healing_prompt schema_context user_query p e
      else _build_initial_prompt schema_context user_query
  | _, _ => _build_initial_prompt schema_context user_query
  end.

(* ------------------------------------------------------------------------- *)
(** ** Response extraction *)
(* ------------------------------------------------------------------------- *)

(** A backtracking matcher in continuation-passing style, with the priorities
    of Python's [re]: a greedy operator tries its longest choice first, a lazy
    one its shortest, and the first choice whose continuation succeeds wins.
    A continuation receives the text still to be matched. *)
Module Backtrack.

Section Matcher.
Context {A : Type}.

(** A literal, compared under [re.IGNORECASE]. *)
Fixpoint lit (p : string) (k : string -> option A) (s : string) : option A :=
  match p with
  | EmptyString => k s
  | String a p' =>
      match s with
      | String b s' => if Char.eqb_nocase a b then lit p' k s' else None
      | EmptyString => None
      end
  end.

(** [(?:r)?], greedy. *)
Definition opt (r : (string -> option A) -> string -> option A)
           (k : string -> option A) (s : string) : option A :=
  match r k s with
  | Some x => Some x
  | None => k s
  end.

(** [\s*], greedy. *)
Fixpoint spaces (k : string -> option A) (s : string) : option A :=
  match s with
  | String c s' =>
      if Char.is_space c
      then match spaces k s' with
           | Some x => Some x
           | None => k s
           end
      else k s
  | EmptyString => k s
  end.

(** [(.*?)] under [re.DOTALL], lazy; the continuation also receives the text
    captured by the group. *)
Fixpoint lazy_any (k : string -> string -> option A) (s : string) : option A :=
  match k EmptyString s with
  | Some x => Some x
  | None =>
      match s with
      | String c s' => lazy_any (fun g => k (String c g)) s'
      | EmptyString => None
      end
  end.

(** The scan of [re.search] / [re.findall] for the first match: the leftmost
    position at which the pattern matches. *)
Fixpoint leftmost (here : string -> option A) (s : string) : option A :=
  match here s with
  | Some x => Some x
  | None =>
      match s with
      | String _ s' => leftmost here s'
      | EmptyString => None
      end
  end.

End Matcher.
End Backtrack.

Definition FENCE : string := "```".

(** [code_block_pattern] tried at one position: group 1 of the match. *)
Definition code_block_here (s : string) : option string :=
  Backtrack.lit FENCE
    (Backtrack.opt (Backtrack.lit "sql")
       (Backtrack.spaces
          (Backtrack.lazy_any
             (fun group =>
                Backtrack.spaces (Backtrack.lit FENCE (fun _ => Some group))))))
    s.

(** [re.findall(code_block_pattern, sql, re.DOTALL | re.IGNORECASE)], as far
    as the caller looks at it: [None] for the empty list, else [matches[0]]. *)
Definition findall_first (s : string) : option string :=
  Backtrack.leftmost code_block_here s.

Definition NL : string := String (ascii_of_nat 10) EmptyString.

Definition SEPARATORS : list string :=
  [NL ++ NL ++ "This query"; NL ++ NL ++ "Explanation"; NL ++ NL ++ "Note:"].

(** One turn of the [for separator in ...] loop. *)
Definition cut_at (sql separator : string) : string :=
  if Str.contains separator sql
  then Str.strip (Str.split_head separator sql)
  else sql.

Definition _extract_sql (response_text : string) : string :=
  let sql := Str.strip response_text in
  let matches := findall_first sql in
  let sql := match matches with
             | Some m => Str.strip m
             | None => sql
             end in
  let sql := Str.strip sql in
  fold_left cut_at SEPARATORS sql.

(* ------------------------------------------------------------------------- *)
(** ** The agent and its two collaborators *)
(* ------------------------------------------------------------------------- *)

(** What a run leaves behind, in order: the loop entering an attempt, a call
    of [generate_safe_sql] (its two optional arguments, the user message it
    sent and what came back: [inl] the text of the exception, [inr] the
    extracted query), a call of [db_manager.execute_query] (the query and what
    came back). *)
Inductive event : Type :=
| EvAttempt (attempt : Z)
| EvGenerate (previous_sql error_message : option string) (prompt : string)
             (result : string + string)
| EvExecute (sql : string) (result : string + DataFrame).

(** The local variables of [execute_with_retry]; [sql] is [None] while the
    name is not bound ([sql not in locals()]). *)
Record frame : Type := mkFrame {
  previous_sql : option string;
  error_message : option string;
  sql : option string
}.

Section Agent.

(** The outside world: the state of the generation backend and of the store. *)
Variable World : Type.

(** [self.client.chat(model, messages, options)['message']['content']] on the
    system and user messages: the reply, or [str(e)] of the exception. *)
Variable chat : string -> string -> World -> (string + string) * World.

(** The body of [DatabaseManager.execute_query]'s [try]: the rows, or
    [str(e)] of the exception. *)
Variable read_sql : string -> World -> (string + DataFrame) * World.

(** [self.schema_context] *)
Variable schema_context : option string.

Record machine : Type := mkMachine {
  locals : frame;
  world : World
}.

(** Computations that may raise, run on the machine and leave events. *)
Definition M (A : Type) : Type := machine -> (exn + A) * machine * list event.

Definition ret {A} (a : A) : M A := fun m => (inr a, m, []).

Definition raise {A} (e : exn) : M A := fun m => (inl e, m, []).

Definition bind {A B} (c : M A) (f : A -> M B) : M B :=
  fun m =>
    match c m with
    | (inl e, m', l) => (inl e, m', l)
    | (inr a, m', l) => let '(r, m'', l') := f a m' in (r, m'', (l ++ l')%list)
    end.

(** [try: c  except ... as e: h e] *)
Definition try_except {A} (c : M A) (h : exn -> M A) : M A :=
  fun m =>
    match c m with
    | (inl e, m', l) => let '(r, m'', l') := h e m' in (r, m'', (l ++ l')%list)
    | (inr a, m', l) => (inr a, m', l)
    end.

Definition emit (e : event) : M unit := fun m => (inr tt, m, [e]).

Definition get_locals : M frame := fun m => (inr (locals m), m, []).

Definition set_locals (f : frame) : M unit :=
  fun m => (inr tt, mkMachine f (world m), []).

(** A call into the outside world. *)
Definition call {A} (f : World -> A * World) : M A :=
  fun m => let '(a, w) := f (world m) in (inr a, mkMachine (locals m) w, []).

Notation "x <- c ;; k" := (bind c (fun x => k))
  (at level 61, c at next level, right associativity).
Notation "c ;;; k" := (bind c (fun _ => k))
  (at level 61, right associativity).

Definition generate_safe_sql (user_query : string)
           (previous_sql error_message : option string) : M string :=
  let prompt := build_prompt schema_context user_query previous_sql error_message in
  response <- call (chat SYSTEM_PROMPT prompt) ;;
  match response with
  | inr content =>
      let sql := _extract_sql content in
      emit (EvGenerate previous_sql error_message prompt (inr sql)) ;;;
      ret sql
  | inl e =>
      emit (EvGenerate previous_sql error_message prompt (inl e)) ;;;
      raise (Exception e)
  end.

(** [DatabaseManager.execute_query] *)
Definition execute_query (sql : string) : M DataFrame :=
  result <- call (read_sql sql) ;;
  match result with
  | inr df =>
      emit (EvExecute sql (inr df)) ;;;
      ret df
  | inl error_msg =>
      let msg := "SQL Error: " ++ error_msg in
      emit (EvExecute sql (inl msg)) ;;;
      raise (Exception msg)
  end.

(** [validate_sql_safety], raising. *)
Definition validate (sql : string) : M bool :=
  match validate_sql_safety sql with
  | inl e => raise e
  | inr b => ret b
  end.

(** [range(lo, hi)] *)
Definition range (lo hi : Z) : list Z :=
  map (fun i => (lo + Z.of_nat i)%Z) (seq 0 (Z.to_nat (hi - lo))).

(** The [try] block of one attempt. *)
Definition attempt_try (user_query : string) : M pyval :=
  vars <- get_locals ;;
  sql <- generate_safe_sql user_query (previous_sql vars) (error_message vars) ;;
  set_locals (mkFrame (previous_sql vars) (error_message vars) (Some sql)) ;;;
  validate sql ;;;
  df <- execute_query sql ;;
  ret (PyTuple [PyDF df; PyStr sql]).

(** The two [except] clauses; [None] lets the loop go on. *)
Definition attempt_except (attempt max_retries : Z) (e : exn) : M (option pyval) :=
  match e with
  | SafetyViolationError _ => raise e
  | Exception _ =>
      vars <- get_locals ;;
      let error_message := str_of_exn e in
      set_locals (mkFrame (sql vars) (Some error_message) (sql vars)) ;;;
      if (attempt =? max_retries)%Z
      then raise (Exception (exhausted_message max_retries error_message))
      else ret None
  end.

(** The [for attempt in range(1, max_retries + 1)] loop; falling off its end
    returns [None]. *)
Fixpoint for_attempts (user_query : string) (max_retries : Z)
         (attempts : list Z) : M pyval :=
  match attempts with
  | [] => ret PyNone
  | attempt :: rest =>
      emit (EvAttempt attempt) ;;;
      outcome <- try_except
                   (v <- attempt_try user_query ;; ret (Some v))
                   (attempt_except attempt max_retries) ;;
      match outcome with
      | Some v => ret v
      | None => for_attempts user_query max_retries rest
      end
  end.

Definition execute_with_retry (user_query : string) (max_retries : Z) : M pyval :=
  set_locals (mkFrame None None None) ;;;
  for_attempts user_query max_retries (range 1 (max_retries + 1)).

(** A run from a given state of the world: the outcome, the world it leaves
    and the events in order. *)
Definition run (user_query : string) (max_retries : Z) (w : World)
  : (exn + pyval) * World * list event :=
  let '(r, m, l) := execute_with_retry user_query max_retries
                      (mkMachine (mkFrame None None None) w) in
  (r, world m, l).

End Agent.

Arguments mkMachine {World} locals world.
Arguments locals {World} m.
Arguments world {World} m.
Arguments for_attempts {World} chat read_sql schema_context user_query
  max_retries attempts _.
Arguments execute_with_retry {World} chat read_sql schema_context user_query
  max_retries _.
Arguments run {World} chat read_sql schema_context user_query max_retries w.

(* ------------------------------------------------------------------------- *)
(** ** Scripted collaborators, for concrete runs *)
(* ------------------------------------------------------------------------- *)

Module Script.

(** A world that answers from two fixed lists, one entry per call. *)
Record world : Type := mkWorld {
  replies : list (string + string);
  results : list (string + DataFrame)
}.

Definition chat (_ _ : string) (w : world) : (string + string) * world :=
  match replies w with
  | r :: rs => (r, mkWorld rs (results w))
  | [] => (inl "connection refused", w)
  end.

Definition read_sql (_ : string) (w : world) : (string + DataFrame) * world :=
  match results w with
  | r :: rs => (r, mkWorld (replies w) rs)
  | [] => (inl "connection closed", w)
  end.

Definition run (schema : option string) (user_query : string) (max_retries : Z)
           (w : world) : (exn + pyval) * world * list event :=
  run chat read_sql schema user_query max_retries w.

Definition one_row : DataFrame := mkDataFrame ["n"] [["1"]].

Definition SCHEMA : option string := Some "Table: orders (id int, total money)".
Definition QUESTION : string := "total of all orders".
Definition INITIAL : string := _build_initial_prompt SCHEMA QUESTION.

End Script.

(* ------------------------------------------------------------------------- *)
(** ** Reading a run's events *)
(* ------------------------------------------------------------------------- *)

Definition is_generate (e : event) : bool :=
  match e with
  | EvGenerate _ _ _ _ => true
  | _ => false
  end.

Definition is_generation_failure (e : event) : bool :=
  match e with
  | EvGenerate _ _ _ (inl _) => true
  | _ => false
  end.

Definition is_execute (e : event) : bool :=
  match e with
  | EvExecute _ _ => true
  | _ => false
  end.

(** The ordinals of the attempts the loop entered, in order. *)
Fixpoint attempt_ordinals (l : list event) : list Z :=
  match l with
  | [] => []
  | EvAttempt k :: l' => k :: attempt_ordinals l'
  | _ :: l' => attempt_ordinals l'
  end.

Definition attempts_made (l : list event) : nat := length (attempt_ordinals l).
Definition generator_calls (l : list event) : nat := length (filter is_generate l).
Definition generation_failures (l : list event) : nat :=
  length (filter is_generation_failure l).
Definition executor_calls (l : list event) : nat := length (filter is_execute l).

(* ------------------------------------------------------------------------- *)
(** ** What the specification calls a blocked text *)
(* ------------------------------------------------------------------------- *)

(** A case-insensitive whole-word occurrence of [keyword] in [text]: a piece of
    the text that equals the keyword up to letter case, with no [\w] character
    right before it and none right after it. *)
Definition word_occurrence (keyword text : string) : Prop :=
  exists pre mid post,
    text = pre ++ mid ++ post
    /\ Str.upper mid = Str.upper keyword
    /\ Re.last_is_word false pre = false
    /\ Re.head_is_word post = false.

Definition blocked (text : string) : Prop :=
  exists keyword, In keyword DESTRUCTIVE_KEYWORDS /\ word_occurrence keyword text.

(** The message of a failed call, if the event is one. *)
Definition failure_text (e : event) : option string :=
  match e with
  | EvGenerate _ _ _ (inl err) => Some err
  | EvExecute _ (inl err) => Some err
  | _ => None
  end.

(* ------------------------------------------------------------------------- *)
(** ** Response extraction, described without the matcher *)
(* ------------------------------------------------------------------------- *)

(** The text after the first occurrence of [sep], if there is one. *)
Fixpoint after_first (sep s : string) : option string :=
  if Str.startswith sep s then Some (Str.drop (String.length sep) s)
  else match s with
       | EmptyString => None
       | String _ s' => after_first sep s'
       end.

(** Drop a leading [sql], in any letter case. *)
Definition skip_tag (s : string) : string :=
  match s with
  | String a (String b (String c rest)) =>
      if Char.eqb_nocase "s" a && Char.eqb_nocase "q" b && Char.eqb_nocase "l" c
      then rest
      else s
  | _ => s
  end.

(** The text up to the next fence, without the white space around it;
    nothing when no fence follows. *)
Definition fence_body (s : string) : option string :=
  let body := Str.lstrip s in
  if Str.contains FENCE body
  then Some (Str.rstrip (Str.split_head FENCE body))
  else None.

(** The content of the first fenced block, wherever it stands in the text:
    what lies between the first fence, an optional [sql] tag after it, and
    the next fence. *)
Definition first_fenced_block (s : string) : option string :=
  match after_first FENCE s with
  | Some rest => fence_body (skip_tag rest)
  | None => None
  end.

(** The text before the earliest place where one of the markers starts. *)
Fixpoint before_markers (markers : list string) (s : string) : string :=
  if existsb (fun marker => Str.startswith marker s) markers then EmptyString
  else match s with
       | EmptyString => EmptyString
       | String c s' => String c (before_markers markers s')
       end.

(** Response extraction told step by step: trim the text; take the first
    fenced block if there is one, else the trimmed text; trim; keep, trimmed,
    what stands before the earliest separator. *)
Definition extract_described (response_text : string) : string :=
  let text := Str.strip response_text in
  let body := match first_fenced_block text with
              | Some block => block
              | None => text
              end in
  Str.strip (before_markers SEPARATORS (Str.strip body)).



(** Whether the text begins with white space. *)
Definition starts_with_space (s : string) : bool :=
  match s with
  | EmptyString => false
  | String c _ => Char.is_space c
  end.

(** What the cut at a separator relies on: a separator is a blank line, that
    is two newlines, followed by a non-empty piece of one line that does not
    end in white space. *)
Definition marker_shape (marker : string) : Prop :=
  exists word,
    marker = NL ++ NL ++ word
    /\ word <> ""
    /\ Str.contains NL word = false
    /\ Str.rstrip word = word.

(** What the validator's patterns rely on: a keyword is a non-empty run of
    upper-case text that starts and ends with a [\w] character. *)
Definition keyword_shape (keyword : string) : Prop :=
  keyword <> ""
  /\ Re.head_is_word keyword = true
  /\ Re.last_is_word false keyword = true
  /\ Str.upper keyword = keyword.

(* ------------------------------------------------------------------------- *)
(** ** More ways to read a run's events *)
(* ------------------------------------------------------------------------- *)

(** The query text of the latest generation that produced one, if any. *)
Definition last_generated (l : list event) : option string :=
  fold_left (fun found e =>
               match e with
               | EvGenerate _ _ _ (inr text) => Some text
               | _ => found
               end) l None.

(** The message of the latest failed call, if any. *)
Definition last_failure (l : list event) : option string :=
  fold_left (fun found e =>
               match failure_text e with
               | Some msg => Some msg
               | None => found
               end) l None.

(** The locals of the loop agree with the events so far: both [previous_sql]
    and [sql] hold the latest generated text, [error_message] the latest
    failure. *)
Definition in_step {World : Type} (h : list event) (m : machine World) : Prop :=
  previous_sql (locals m) = last_generated h
  /\ sql (locals m) = last_generated h
  /\ error_message (locals m) = last_failure h.

(* ------------------------------------------------------------------------- *)
(** ** The words of a text *)
(* ------------------------------------------------------------------------- *)

(** The word being read, once it ends. *)
Definition flush (word : string) : list string :=
  match word with
  | EmptyString => []
  | _ => [word]
  end.

(** The maximal runs of [\w] characters of a text, in order; [word] is the
    run read so far. *)
Fixpoint words_from (word : string) (s : string) : list string :=
  match s with
  | EmptyString => flush word
  | String c s' =>
      if Char.is_word c
      then words_from (word ++ String c EmptyString) s'
      else (flush word ++ words_from EmptyString s')%list
  end.

Definition words (s : string) : list string := words_from EmptyString s.

(** A text made of [\w] characters only. *)
Fixpoint all_word (s : string) : bool :=
  match s with
  | EmptyString => true
  | String c s' => Char.is_word c && all_word s'
  end.

(* ------------------------------------------------------------------------- *)
(** ** The performance monitor of [src/performance_monitor.py] *)
(* ------------------------------------------------------------------------- *)

(** [s[:n]] *)
Fixpoint take (n : nat) (s : string) : string :=
  match n, s with
  | S n', String c s' => String c (take n' s')
  | _, _ => EmptyString
  end.

(** [collections.deque(maxlen=n).append(x)] on a deque holding [q]: once the
    deque is full the item at the left end is dropped; with [n = 0] nothing
    is ever kept. *)
Definition deque_append {A : Type} (maxlen : nat) (q : list A) (x : A) : list A :=
  if (length q <? maxlen)%nat then (q ++ [x])%list
  else match maxlen with
       | O => []
       | S _ => (tl q ++ [x])%list
       end.

(** The last [n] items of a list. *)
Definition lastn {A : Type} (n : nat) (l : list A) : list A :=
  skipn (length l - n) l.

Section Monitor.

(** Python's [float]; its arithmetic is not looked into. *)
Variable Float : Type.

(** [0.0] *)
Variable zero : Float.

(** [(now - start) * 1000] *)
Variable elapsed_ms : Float -> Float -> Float.

Variable World : Type.

(** [sys.maxsize], the largest [Py_ssize_t] of the platform. *)
Variable maxsize : Z.

(** [time.time()] *)
Variable time_time : World -> Float * World.

(** [datetime.now().isoformat()] *)
Variable now_isoformat : World -> string * World.

(** One entry of [query_metrics]. *)
Record metric : Type := mkMetric {
  timestamp : string;
  query : string;
  execution_time_ms : Float;
  rows_returned : Z;
  success : bool;
  query_length : nat
}.

Record monitor : Type := mkMonitor {
  max_history : nat;
  query_metrics : list metric;
  current_query_start : option Float
}.

(** [PerformanceMonitor(max_history)]: [deque] refuses a [maxlen] that does
    not fit a [Py_ssize_t] with [OverflowError] and a negative one with
    [ValueError]. *)
Definition PerformanceMonitor (max_history : Z) : exn + monitor :=
  if (maxsize <? max_history)%Z || (max_history <? - maxsize - 1)%Z
  then inl (Exception "Python int too large to convert to C ssize_t")
  else if (max_history <? 0)%Z
  then inl (Exception "maxlen must be non-negative")
  else inr (mkMonitor (Z.to_nat max_history) [] None).

Definition start_query (mon : monitor) (w : World) : monitor * World :=
  let '(t, w') := time_time w in
  (mkMonitor (max_history mon) (query_metrics mon) (Some t), w').

(** The entry [end_query] builds for a query started at [started]. *)
Definition new_metric (started : Float) (query : string) (rows_returned : Z)
           (success : bool) (w : World) : metric * World :=
  let '(t, w1) := time_time w in
  let execution_time := elapsed_ms t started in
  let '(stamp, w2) := now_isoformat w1 in
  (mkMetric stamp (take 200 query) execution_time rows_returned success
            (String.length query),
   w2).

(** [end_query]: the value returned, the monitor and the world after it. *)
Definition end_query (mon : monitor) (query : string) (rows_returned : Z)
           (success : bool) (w : World) : Float * monitor * World :=
  match current_query_start mon with
  | None => (zero, mon, w)
  | Some started =>
      let '(m, w') := new_metric started query rows_returned success w in
      (execution_time_ms m,
       mkMonitor (max_history mon)
                 (deque_append (max_history mon) (query_metrics mon) m)
                 None,
       w')
  end.

(** The calls a user of the monitor can make. *)
Inductive monitor_call : Type :=
| CallStart
| CallEnd (query : string) (rows_returned : Z) (success : bool).

(** A sequence of calls; beside the monitor and the world it gives, in
    order, every entry that was appended on the way. *)
Fixpoint monitor_calls (calls : list monitor_call) (mon : monitor) (w : World)
  : monitor * World * list metric :=
  match calls with
  | [] => (mon, w, [])
  | CallStart :: rest =>
      let '(mon', w') := start_query mon w in
      monitor_calls rest mon' w'
  | CallEnd q n ok :: rest =>
      let '(_, mon', w') := end_query mon q n ok w in
      let '(mon'', w'', appended) := monitor_calls rest mon' w' in
      (mon'', w'',
       match current_query_start mon with
       | Some started => fst (new_metric started q n ok w) :: appended
       | None => appended
       end)
  end.

Definition is_start (c : monitor_call) : bool :=
  match c with
  | CallStart => true
  | CallEnd _ _ _ => false
  end.

(** ** [BackupDBAgent.run_query] of [src/main.py] *)

Variable chat : string -> string -> World -> (string + string) * World.
Variable read_sql : string -> World -> (string + DataFrame) * World.
Variable schema_context : option string.

(** Everything [run_query] does between [end_query] and its [except]
    clauses (showing the table, saving the files, the history entry, the
    insights, the chart, the suggestions), taken as one step on the world
    that either completes or raises; it does not touch the monitor. *)
Variable present : string -> string -> DataFrame -> Float -> World
                   -> (string + unit) * World.

(** [len(df)] *)
Definition len (df : DataFrame) : Z := Z.of_nat (length (rows df)).

(** [run_query]: the monitor and the world after it, and the events of the
    agent's run.  [execute_with_retry] is called with its default
    [max_retries = 3]; a value that cannot be unpacked into [df, sql] raises
    inside the [try] like any other failure. *)
Definition run_query (user_query : string) (mon : monitor) (w : World)
  : monitor * World * list event :=
  let '(mon1, w1) := start_query mon w in
  let '(r, w2, l) := run chat read_sql schema_context user_query 3 w1 in
  match r with
  | inr (PyTuple [PyDF df; PyStr sql]) =>
      let '(execution_time, mon2, w3) := end_query mon1 sql (len df) true w2 in
      match present user_query sql df execution_time w3 with
      | (inr _, w4) => (mon2, w4, l)
      | (inl _, w4) =>
          let '(_, mon3, w5) := end_query mon2 "" 0 false w4 in (mon3, w5, l)
      end
  | _ =>
      let '(_, mon2, w3) := end_query mon1 "" 0 false w2 in (mon2, w3, l)
  end.

End Monitor.

Arguments mkMetric {Float} timestamp query execution_time_ms rows_returned
  success query_length.
Arguments timestamp {Float} m.
Arguments query {Float} m.
Arguments execution_time_ms {Float} m.
Arguments rows_returned {Float} m.
Arguments success {Float} m.
Arguments query_length {Float} m.
Arguments mkMonitor {Float} max_history query_metrics current_query_start.
Arguments max_history {Float} m.
Arguments query_metrics {Float} m.
Arguments current_query_start {Float} m.
Arguments PerformanceMonitor {Float} maxsize max_history.
Arguments start_query {Float World} time_time mon w.
Arguments new_metric {Float} elapsed_ms {World} time_time now_isoformat started
  query rows_returned success w.
Arguments end_query {Float} zero elapsed_ms {World} time_time now_isoformat mon
  query rows_returned success w.
Arguments monitor_calls {Float} zero elapsed_ms {World} time_time now_isoformat
  calls mon w.
Arguments run_query {Float} zero elapsed_ms {World} time_time now_isoformat chat
  read_sql schema_context present user_query mon w.

(** A clock that ticks once per reading, for concrete runs of the monitor. *)
Module Ticks.

Definition time_time (w : Z) : Z * Z := (w, (w + 1)%Z).

Definition now_isoformat (w : Z) : string * Z := ("2024-01-01T00:00:00", w).

Definition elapsed_ms (now started : Z) : Z := ((now - started) * 1000)%Z.

End Ticks.

(* ------------------------------------------------------------------------- *)
(** ** [BackupDBAgent.handle_command] of [src/main.py] *)
(* ------------------------------------------------------------------------- *)

Module Text.

(** One character of [str.lower]. *)
Definition lower_char (c : ascii) : ascii :=
  if Char.is_upper c then ascii_of_nat (Char.code c + 32) else c.

(** [s.lower()] *)
Fixpoint lower (s : string) : string :=
  match s with
  | EmptyString => EmptyString
  | String c s' => String (lower_char c) (lower s')
  end.

(** [s.split()]: the pieces between runs of white space; [piece] is the one
    read so far. *)
Fixpoint split_from (piece : string) (s : string) : list string :=
  match s with
  | EmptyString => flush piece
  | String c s' =>
      if Char.is_space c
      then (flush piece ++ split_from EmptyString s')%list
      else split_from (piece ++ String c EmptyString) s'
  end.

Definition split (s : string) : list string := split_from EmptyString s.

(** [sep.join(l)] *)
Fixpoint join (sep : string) (l : list string) : string :=
  match l with
  | [] => EmptyString
  | [x] => x
  | x :: rest => x ++ sep ++ join sep rest
  end.

(** [s.isdigit()] *)
Fixpoint all_digits (s : string) : bool :=
  match s with
  | EmptyString => true
  | String c s' => Char.is_digit c && all_digits s'
  end.

Definition isdigit (s : string) : bool :=
  match s with
  | EmptyString => false
  | _ => all_digits s
  end.

(** [s in l] *)
Definition is_in (s : string) (l : list string) : bool := existsb (String.eqb s) l.

End Text.

(** The method [handle_command] hands the command to. *)
Inductive action : Type :=
| ShowHelp
| RefreshSchema
| ShowHistory (limit : Z)
| SearchHistory (keyword : string)
| ToggleFavorite (query_id : Z)
| ReplayQuery (query_id : Z)
| ExportLastResult (format_type : string)
| ShowTemplates
| ShowStats
| ToggleInsights.

(** What [handle_command] returns: ['exit'], [True] or [False]. *)
Inductive reply : Type :=
| ReplyExit
| ReplyTrue
| ReplyFalse.

Section Commands.

(** [int(s)]: the number, or [str(e)] of the [ValueError]. *)
Variable int_of : string -> string + Z.

(** [parts[i]] *)
Definition item (parts : list string) (i : nat) : exn + string :=
  match nth_error parts i with
  | Some p => inr p
  | None => inl (Exception "list index out of range")
  end.

(** [int(parts[1])] followed by the call of a method on the number. *)
Definition with_number (parts : list string) (call : Z -> action)
  : exn + (reply * option action) :=
  match item parts 1 with
  | inl e => inl e
  | inr p =>
      match int_of p with
      | inl e => inl (Exception e)
      | inr n => inr (ReplyTrue, Some (call n))
      end
  end.

(** [handle_command]: what it returns and the method it has called on the
    way, if any; [inl] when it raises. *)
Definition handle_command (command : string) : exn + (reply * option action) :=
  let cmd_lower := Str.strip (Text.lower command) in
  let parts := Text.split command in
  if Text.is_in cmd_lower ["exit"; "quit"; "q"] then inr (ReplyExit, None)
  else if Text.is_in cmd_lower ["help"; "?"] then inr (ReplyTrue, Some ShowHelp)
  else if String.eqb cmd_lower "refresh" then inr (ReplyTrue, Some RefreshSchema)
  else if Str.startswith "history" cmd_lower then
    if (length parts =? 1)%nat then inr (ReplyTrue, Some (ShowHistory 10))
    else match item parts 1 with
         | inl e => inl e
         | inr p =>
             if Text.isdigit p then with_number parts ShowHistory
             else inr (ReplyTrue, None)
         end
  else if Str.startswith "search " cmd_lower then
    inr (ReplyTrue, Some (SearchHistory (Text.join " " (tl parts))))
  else if Str.startswith "favorite " cmd_lower && (length parts =? 2)%nat then
    with_number parts ToggleFavorite
  else if Str.startswith "replay " cmd_lower && (length parts =? 2)%nat then
    with_number parts ReplayQuery
  else if Str.startswith "export " cmd_lower then
    inr (ReplyTrue,
         Some (ExportLastResult (if (1 <? length parts)%nat
                                 then nth 1 parts EmptyString
                                 else "excel")))
  else if String.eqb cmd_lower "templates" then inr (ReplyTrue, Some ShowTemplates)
  else if Text.is_in cmd_lower ["stats"; "performance"] then inr (ReplyTrue, Some ShowStats)
  else if String.eqb cmd_lower "insights" then inr (ReplyTrue, Some ToggleInsights)
  else inr (ReplyFalse, None).

End Commands.

(** An [int] that rejects every text, for runs that never convert one. *)
Definition no_int (s : string) : string + Z := inl "invalid literal for int()".


(* ------------------------------------------------------------------------- *)
(** * Facts about characters and texts *)
(* ------------------------------------------------------------------------- *)

Module CharFacts.

Ltac by_cases c :=
  destruct c as [[] [] [] [] [] [] [] []]; vm_compute; reflexivity.

Lemma is_word_upper (c : ascii) : Char.is_word (Char.upper c) = Char.is_word c.
Proof. by_cases c. Qed.

End CharFacts.

Module StrFacts.

Lemma app_empty_r (s : string) : s ++ "" = s.
Proof. induction s; simpl; congruence. Qed.

Lemma app_assoc (a b c : string) : (a ++ b) ++ c = a ++ b ++ c.
Proof. induction a; simpl; congruence. Qed.

Lemma upper_app (a b : string) : Str.upper (a ++ b) = Str.upper a ++ Str.upper b.
Proof. induction a; simpl; congruence. Qed.

(** A split of the upper-cased text comes from a split of the text. *)
Lemma upper_split (t a b : string) :
  Str.upper t = a ++ b ->
  exists a' b', t = a' ++ b' /\ Str.upper a' = a /\ Str.upper b' = b.
Proof.
  revert t. induction a as [|c a IH]; intros t H.
  - exists "", t. auto.
  - destruct t as [|d t]; simpl in H; [discriminate|].
    injection H as Hc Ht. destruct (IH _ Ht) as (a' & b' & -> & <- & <-).
    exists (String d a'), b'. simpl. rewrite Hc. auto.
Qed.

Lemma startswith_app (p s : string) : Str.startswith p (p ++ s) = true.
Proof. induction p; simpl; [reflexivity|]. rewrite Ascii.eqb_refl. assumption. Qed.

Lemma startswith_inv (p s : string) :
  Str.startswith p s = true -> exists post, s = p ++ post.
Proof.
  revert s. induction p as [|a p IH]; intros s H.
  - exists s. reflexivity.
  - destruct s as [|b s]; simpl in H; [discriminate|].
    apply andb_true_iff in H as [Hab Hs]. apply Ascii.eqb_eq in Hab as ->.
    destruct (IH _ Hs) as [post ->]. exists post. reflexivity.
Qed.

Lemma drop_app (p s : string) : Str.drop (String.length p) (p ++ s) = s.
Proof. induction p; simpl; auto. Qed.

Lemma head_is_word_upper (s : string) :
  Re.head_is_word (Str.upper s) = Re.head_is_word s.
Proof. destruct s; simpl; [reflexivity | apply CharFacts.is_word_upper]. Qed.

Lemma last_is_word_upper (b : bool) (s : string) :
  Re.last_is_word b (Str.upper s) = Re.last_is_word b s.
Proof.
  revert b. induction s; simpl; intros; [reflexivity|].
  rewrite CharFacts.is_word_upper. apply IHs.
Qed.

Lemma last_is_word_nonempty (b b' : bool) (s : string) :
  s <> "" -> Re.last_is_word b s = Re.last_is_word b' s.
Proof. destruct s; simpl; congruence. Qed.

Lemma head_is_word_app (a s : string) :
  a <> "" -> Re.head_is_word (a ++ s) = Re.head_is_word a.
Proof. destruct a; simpl; congruence. Qed.

End StrFacts.

(* ------------------------------------------------------------------------- *)
(** * The safety validator *)
(* ------------------------------------------------------------------------- *)

Module ValidatorFacts.

Import StrFacts.

Lemma keywords_shape (keyword : string) :
  In keyword DESTRUCTIVE_KEYWORDS -> keyword_shape keyword.
Proof.
  unfold DESTRUCTIVE_KEYWORDS. simpl.
  intros H; repeat (destruct H as [<- | H]; [repeat split; discriminate|]).
  contradiction.
Qed.

(** [\b keyword \b] at one position, read as a statement about the text. *)
Lemma match_word_here_iff (before : bool) (kw s : string) :
  keyword_shape kw ->
  Re.match_word_here before kw s = true <->
  before = false /\ exists post, s = kw ++ post /\ Re.head_is_word post = false.
Proof.
  intros (Hne & Hhead & Hlast & _). unfold Re.match_word_here, Re.word_boundary.
  split.
  - intros H. apply andb_true_iff in H as [H H3]. apply andb_true_iff in H as [H1 H2].
    apply startswith_inv in H2 as [post ->].
    rewrite head_is_word_app, Hhead in H1 by assumption.
    rewrite drop_app in H3.
    rewrite (last_is_word_nonempty before false), Hlast in H3 by assumption.
    destruct before; [discriminate|]. split; [reflexivity|].
    exists post. split; [reflexivity|].
    destruct (Re.head_is_word post); [discriminate | reflexivity].
  - intros (-> & post & -> & Hpost).
    rewrite head_is_word_app, Hhead by assumption.
    rewrite startswith_app, drop_app, Hlast, Hpost. reflexivity.
Qed.

Lemma search_word_from_here (before : bool) (kw s : string) :
  Re.match_word_here before kw s = true -> Re.search_word_from before kw s = true.
Proof. destruct s; simpl; intros ->; reflexivity. Qed.

Lemma search_word_from_intro (kw post pre : string) (before : bool) :
  keyword_shape kw ->
  Re.last_is_word before pre = false ->
  Re.head_is_word post = false ->
  Re.search_word_from before kw (pre ++ kw ++ post) = true.
Proof.
  intros Hk. revert before. induction pre as [|c pre IH]; intros before Hpre Hpost.
  - simpl in Hpre. subst before. simpl "++".
    apply search_word_from_here. apply match_word_here_iff; eauto.
  - simpl. rewrite (IH _ Hpre Hpost). apply orb_true_r.
Qed.

Lemma search_word_from_elim (kw s : string) (before : bool) :
  keyword_shape kw ->
  Re.search_word_from before kw s = true ->
  exists pre post,
    s = pre ++ kw ++ post
    /\ Re.last_is_word before pre = false
    /\ Re.head_is_word post = false.
Proof.
  intros Hk. revert before. induction s as [|c s IH]; intros before H.
  - simpl in H. rewrite orb_false_r in H.
    apply match_word_here_iff in H as (-> & post & E & Hpost); [|assumption].
    exists "", post. auto.
  - simpl in H. apply orb_true_iff in H as [H | H].
    + apply match_word_here_iff in H as (-> & post & E & Hpost); [|assumption].
      exists "", post. auto.
    + destruct (IH _ H) as (pre & post & -> & Hpre & Hpost).
      exists (String c pre), post. auto.
Qed.

(** The pattern of one keyword finds exactly the case-insensitive whole-word
    occurrences of that keyword. *)
Lemma search_word_iff (kw sql : string) :
  keyword_shape kw ->
  Re.search_word kw (Str.upper sql) = true <-> word_occurrence kw sql.
Proof.
  intros Hk. pose proof Hk as (_ & _ & _ & Hup). unfold Re.search_word, word_occurrence.
  split.
  - intros H. apply search_word_from_elim in H as (pre & post & E & Hpre & Hpost);
      [|assumption].
    apply upper_split in E as (pre' & rest & -> & <- & E).
    apply upper_split in E as (mid & post' & -> & E & <-).
    exists pre', mid, post'. rewrite last_is_word_upper in Hpre.
    rewrite head_is_word_upper in Hpost. rewrite Hup. auto.
  - intros (pre & mid & post & -> & Hmid & Hpre & Hpost).
    rewrite !upper_app, Hmid, Hup.
    apply search_word_from_intro; auto.
    + rewrite last_is_word_upper. assumption.
    + rewrite head_is_word_upper. assumption.
Qed.

(** The loop stops at the first keyword of the list whose pattern matches. *)
Lemma validate_loop_ok (kws : list string) (s : string) (n : nat) :
  fst (validate_loop kws s n) = inr true <->
  forall kw, In kw kws -> Re.search_word kw s = false.
Proof.
  revert n. induction kws as [|k kws IH]; intros n; simpl.
  - split; [intros _ kw [] | reflexivity].
  - destruct (Re.search_word k s) eqn:E; simpl.
    + split; [discriminate|]. intros H. specialize (H k (or_introl eq_refl)). congruence.
    + rewrite IH. split.
      * intros H kw [<- | Hin]; auto.
      * intros H kw Hin. apply H. auto.
Qed.

Lemma validate_loop_raises (kws : list string) (s : string) (n : nat) (e : exn) (scanned : nat) :
  validate_loop kws s n = (inl e, scanned) ->
  exists earlier kw later,
    kws = (earlier ++ kw :: later)%list
    /\ (forall k, In k earlier -> Re.search_word k s = false)
    /\ Re.search_word kw s = true
    /\ e = SafetyViolationError (safety_message kw)
    /\ scanned = n + S (length earlier).
Proof.
  revert n. induction kws as [|k kws IH]; intros n; simpl; [discriminate|].
  destruct (Re.search_word k s) eqn:E.
  - intros [= <- <-]. exists [], k, kws. simpl. repeat split; auto; try lia.
  - intros H. apply IH in H as (earlier & kw & later & -> & H1 & H2 & H3 & H4).
    exists (k :: earlier), kw, later. simpl. repeat split; auto; try lia.
    intros k' [<- | Hin]; auto.
Qed.

Lemma validate_loop_total (kws : list string) (s : string) (n : nat) :
  (exists scanned, validate_loop kws s n = (inr true, scanned))
  \/ (exists e scanned, validate_loop kws s n = (inl e, scanned)).
Proof.
  revert n. induction kws as [|k kws IH]; intros n; simpl; eauto.
  destruct (Re.search_word k s); eauto.
Qed.

(** [validate_sql_safety] passes exactly the texts that are not blocked. *)
Lemma validate_ok_iff (sql : string) :
  validate_sql_safety sql = inr true <-> ~ blocked sql.
Proof.
  unfold validate_sql_safety, validate_sql_safety_scan. rewrite validate_loop_ok.
  unfold blocked. split.
  - intros H (kw & Hin & Hocc). apply search_word_iff in Hocc; auto using keywords_shape.
    rewrite H in Hocc by assumption. discriminate.
  - intros H kw Hin. destruct (Re.search_word kw (Str.upper sql)) eqn:E; [|reflexivity].
    exfalso. apply H. exists kw. split; [assumption|].
    apply search_word_iff; auto using keywords_shape.
Qed.

(** It returns [True] or raises a [SafetyViolationError], nothing else. *)
Lemma validate_cases (sql : string) :
  validate_sql_safety sql = inr true
  \/ exists kw, In kw DESTRUCTIVE_KEYWORDS
                /\ validate_sql_safety sql = inl (SafetyViolationError (safety_message kw)).
Proof.
  unfold validate_sql_safety, validate_sql_safety_scan.
  destruct (validate_loop_total DESTRUCTIVE_KEYWORDS (Str.upper sql) 0)
    as [[n H] | (e & n & H)]; rewrite H; cbn [fst]; [auto|].
  apply validate_loop_raises in H as (earlier & kw & later & E & _ & _ & -> & _).
  right. exists kw. split; [|reflexivity]. rewrite E. apply in_elt.
Qed.

End ValidatorFacts.

Module ContainsFacts.

Import StrFacts.

Lemma contains_here (x s : string) :
  Str.startswith x s = true -> Str.contains x s = true.
Proof. destruct s; simpl; intros ->; reflexivity. Qed.

(** A text contains each of the pieces it is put together from. *)
Lemma contains_app (x a b : string) : Str.contains x (a ++ x ++ b) = true.
Proof.
  induction a as [|c a IH]; simpl "++".
  - apply contains_here, startswith_app.
  - simpl. rewrite IH. apply orb_true_r.
Qed.

Lemma contains_iff (x s : string) :
  Str.contains x s = true <-> exists a b, s = a ++ x ++ b.
Proof.
  split.
  - induction s as [|c s IH]; simpl; intros H.
    + rewrite orb_false_r in H. apply startswith_inv in H as [post E].
      exists "", post. assumption.
    + apply orb_true_iff in H as [H | H].
      * apply startswith_inv in H as [post E]. exists "", post. assumption.
      * destruct (IH H) as (a & b & ->). exists (String c a), b. reflexivity.
  - intros (a & b & ->). apply contains_app.
Qed.

End ContainsFacts.

(** On ASCII text [validate_sql_safety] answers [True] exactly when the text
    has no case-insensitive whole-word occurrence of a blocked keyword;
    otherwise it raises [SafetyViolationError] at the first keyword of the
    list that occurs, names that keyword in the message, and has tried no
    pattern beyond it. *)
Theorem validator_on_ascii_text (sql : string) :
  Str.isascii sql = true ->
  (validate_sql_safety sql = inr true <-> ~ blocked sql)
  /\ (validate_sql_safety sql = inr true
      \/ exists e scanned, validate_sql_safety_scan sql = (inl e, scanned))
  /\ (forall e scanned,
        validate_sql_safety_scan sql = (inl e, scanned) ->
        exists earlier keyword later,
          DESTRUCTIVE_KEYWORDS = (earlier ++ keyword :: later)%list
          /\ (forall k, In k earlier -> ~ word_occurrence k sql)
          /\ word_occurrence keyword sql
          /\ e = SafetyViolationError (safety_message keyword)
          /\ Str.contains keyword (str_of_exn e) = true
          /\ scanned = S (length earlier)).
Proof.
  intros _. split; [apply ValidatorFacts.validate_ok_iff|]. split.
  - unfold validate_sql_safety, validate_sql_safety_scan.
    destruct (ValidatorFacts.validate_loop_total DESTRUCTIVE_KEYWORDS (Str.upper sql) 0)
      as [[n H] | (e & n & H)]; rewrite H; eauto.
  - intros e scanned H. unfold validate_sql_safety_scan in H.
    apply ValidatorFacts.validate_loop_raises
      in H as (earlier & kw & later & E & Hearlier & Hkw & -> & ->).
    assert (Hshape : forall k, In k DESTRUCTIVE_KEYWORDS -> keyword_shape k)
      by apply ValidatorFacts.keywords_shape.
    exists earlier, kw, later. repeat split; auto.
    + intros k Hin Hocc. apply ValidatorFacts.search_word_iff in Hocc.
      * rewrite (Hearlier k Hin) in Hocc. discriminate.
      * apply Hshape. rewrite E. apply in_or_app. auto.
    + apply ValidatorFacts.search_word_iff; [|assumption].
      apply Hshape. rewrite E. apply in_elt.
    + apply ContainsFacts.contains_app.
Qed.

(* ------------------------------------------------------------------------- *)
(** * The retry loop *)
(* ------------------------------------------------------------------------- *)

Section RetryFacts.

Variable World : Type.
Variable chat : string -> string -> World -> (string + string) * World.
Variable read_sql : string -> World -> (string + DataFrame) * World.
Variable schema_context : option string.

Abbreviation loop := (for_attempts chat read_sql schema_context).

(** One turn of the loop, spelled out on the answers of the two
    collaborators. *)
Lemma for_attempts_cons (q : string) (N a : Z) (rest : list Z) (m : machine World) :
  loop q N (a :: rest) m =
  let vars := locals m in
  let prompt := build_prompt schema_context q (previous_sql vars) (error_message vars) in
  let generated := EvGenerate (previous_sql vars) (error_message vars) prompt in
  let retry (s : option string) (w : World) (evs : list event) (msg : string) :=
    let m' := mkMachine (mkFrame s (Some msg) s) w in
    if (a =? N)%Z
    then (inl (Exception (exhausted_message N msg)), m', evs)
    else let '(r, m'', l) := loop q N rest m' in (r, m'', (evs ++ l)%list) in
  match chat SYSTEM_PROMPT prompt (world m) with
  | (inl e, w1) => retry (sql vars) w1 [EvAttempt a; generated (inl e)] e
  | (inr content, w1) =>
      let s := _extract_sql content in
      let vars' := mkFrame (previous_sql vars) (error_message vars) (Some s) in
      match validate_sql_safety s with
      | inl e => (inl e, mkMachine vars' w1, [EvAttempt a; generated (inr s)])
      | inr _ =>
          match read_sql s w1 with
          | (inr df, w2) =>
              (inr (PyTuple [PyDF df; PyStr s]), mkMachine vars' w2,
               [EvAttempt a; generated (inr s); EvExecute s (inr df)])
          | (inl err, w2) =>
              retry (Some s) w2
                    [EvAttempt a; generated (inr s);
                     EvExecute s (inl ("SQL Error: " ++ err))]
                    ("SQL Error: " ++ err)
          end
      end
  end.
Proof.
  cbv zeta. cbn [for_attempts].
  cbv beta iota zeta delta
    [bind try_except attempt_try attempt_except generate_safe_sql
     execute_query validate call emit get_locals set_locals ret raise
     locals world].
  destruct (chat _ _ _) as [[e | content] w1]; cbn [locals world str_of_exn sql app].
  - destruct (a =? N)%Z; [reflexivity|].
    destruct (loop _ _ _ _) as [[r m''] l]. reflexivity.
  - destruct (ValidatorFacts.validate_cases (_extract_sql content)) as [V | (kw & _ & V)];
      rewrite V; cbn [locals world str_of_exn sql app]; [|reflexivity].
    destruct (read_sql _ _) as [[err | df] w2]; cbn [locals world str_of_exn sql app].
    + destruct (a =? N)%Z; [reflexivity|].
      destruct (loop _ _ _ _) as [[r m''] l]. reflexivity.
    + reflexivity.
Qed.

Abbreviation prompt_of q m :=
  (build_prompt schema_context q (previous_sql (locals m)) (error_message (locals m))).
Abbreviation generated q m :=
  (EvGenerate (previous_sql (locals m)) (error_message (locals m)) (prompt_of q m)).
Abbreviation after_failure s msg w := (mkMachine (mkFrame s (Some msg) s) w).
Abbreviation after_generation m s w :=
  (mkMachine (mkFrame (previous_sql (locals m)) (error_message (locals m)) (Some s)) w).

(** Induction over the turns of the loop: the seven ways a turn can go. *)
Lemma for_attempts_ind (q : string) (N : Z)
      (P : list Z -> machine World -> exn + pyval -> machine World -> list event -> Prop) :
  (forall m, P [] m (inr PyNone) m []) ->
  (forall a rest m e w1,
      chat SYSTEM_PROMPT (prompt_of q m) (world m) = (inl e, w1) ->
      a = N ->
      P (a :: rest) m (inl (Exception (exhausted_message N e)))
        (after_failure (sql (locals m)) e w1)
        [EvAttempt a; generated q m (inl e)]) ->
  (forall a rest m e w1 r m' l,
      chat SYSTEM_PROMPT (prompt_of q m) (world m) = (inl e, w1) ->
      a <> N ->
      loop q N rest (after_failure (sql (locals m)) e w1) = (r, m', l) ->
      P rest (after_failure (sql (locals m)) e w1) r m' l ->
      P (a :: rest) m r m' (EvAttempt a :: generated q m (inl e) :: l)) ->
  (forall a rest m content w1 kw,
      chat SYSTEM_PROMPT (prompt_of q m) (world m) = (inr content, w1) ->
      In kw DESTRUCTIVE_KEYWORDS ->
      validate_sql_safety (_extract_sql content)
      = inl (SafetyViolationError (safety_message kw)) ->
      P (a :: rest) m (inl (SafetyViolationError (safety_message kw)))
        (after_generation m (_extract_sql content) w1)
        [EvAttempt a; generated q m (inr (_extract_sql content))]) ->
  (forall a rest m content w1 df w2,
      chat SYSTEM_PROMPT (prompt_of q m) (world m) = (inr content, w1) ->
      validate_sql_safety (_extract_sql content) = inr true ->
      read_sql (_extract_sql content) w1 = (inr df, w2) ->
      P (a :: rest) m (inr (PyTuple [PyDF df; PyStr (_extract_sql content)]))
        (after_generation m (_extract_sql content) w2)
        [EvAttempt a; generated q m (inr (_extract_sql content));
         EvExecute (_extract_sql content) (inr df)]) ->
  (forall a rest m content w1 err w2,
      chat SYSTEM_PROMPT (prompt_of q m) (world m) = (inr content, w1) ->
      validate_sql_safety (_extract_sql content) = inr true ->
      read_sql (_extract_sql content) w1 = (inl err, w2) ->
      a = N ->
      P (a :: rest) m (inl (Exception (exhausted_message N ("SQL Error: " ++ err))))
        (after_failure (Some (_extract_sql content)) ("SQL Error: " ++ err) w2)
        [EvAttempt a; generated q m (inr (_extract_sql content));
         EvExecute (_extract_sql content) (inl ("SQL Error: " ++ err))]) ->
  (forall a rest m content w1 err w2 r m' l,
      chat SYSTEM_PROMPT (prompt_of q m) (world m) = (inr content, w1) ->
      validate_sql_safety (_extract_sql content) = inr true ->
      read_sql (_extract_sql content) w1 = (inl err, w2) ->
      a <> N ->
      loop q N rest
           (after_failure (Some (_extract_sql content)) ("SQL Error: " ++ err) w2)
      = (r, m', l) ->
      P rest (after_failure (Some (_extract_sql content)) ("SQL Error: " ++ err) w2)
        r m' l ->
      P (a :: rest) m r m'
        (EvAttempt a :: generated q m (inr (_extract_sql content))
         :: EvExecute (_extract_sql content) (inl ("SQL Error: " ++ err)) :: l)) ->
  forall attempts m r m' l,
    loop q N attempts m = (r, m', l) -> P attempts m r m' l.
Proof.
  intros Hnil Hgl Hgm Hunsafe Hok Hel Hem.
  induction attempts as [|a rest IH]; intros m r m' l H.
  - cbn in H. injection H as <- <- <-. apply Hnil.
  - rewrite for_attempts_cons in H. cbv zeta in H.
    destruct (chat _ _ _) as [[e | content] w1] eqn:C.
    + destruct (Z.eqb_spec a N) as [E | E].
      * injection H as <- <- <-. apply Hgl; assumption.
      * destruct (loop _ _ _ _) as [[r1 m1] l1] eqn:L. injection H as <- <- <-.
        apply Hgm with w1; auto.
    + destruct (ValidatorFacts.validate_cases (_extract_sql content))
        as [V | (kw & Hkw & V)]; rewrite V in H.
      * destruct (read_sql _ _) as [[err | df] w2] eqn:R.
        -- destruct (Z.eqb_spec a N) as [E | E].
           ++ injection H as <- <- <-. apply Hel with w1; assumption.
           ++ destruct (loop _ _ _ _) as [[r1 m1] l1] eqn:L. injection H as <- <- <-.
              apply Hem with w1 w2; auto.
        -- injection H as <- <- <-. apply Hok with w1; assumption.
      * injection H as <- <- <-. apply Hunsafe with (kw := kw); assumption.
Qed.

Ltac loop_induction :=
  match goal with
  | |- forall attempts m r m' l,
        for_attempts _ _ _ ?q ?N attempts m = (r, m', l) -> @?P attempts m r m' l =>
      apply (for_attempts_ind q N P)
  end.

(** Every attempt calls the generator once; the attempts entered are an
    initial stretch of the range. *)
Lemma loop_attempts (q : string) (N : Z) attempts m r m' l :
  loop q N attempts m = (r, m', l) ->
  generator_calls l = attempts_made l
  /\ attempt_ordinals l = firstn (attempts_made l) attempts.
Proof.
  revert attempts m r m' l.
  loop_induction; intros; cbn; try (split; reflexivity).
  - destruct H2 as [H2 H3]. unfold generator_calls, attempts_made in *.
    rewrite H2. cbn. split; congruence.
  - destruct H4 as [H4 H5]. unfold generator_calls, attempts_made in *.
    rewrite H4. cbn. split; congruence.
Qed.

(** Where the attempts went: each one ends in a failed generation, in an
    execution, or in the safety violation that ends the run. *)
Lemma loop_executor_calls (q : string) (N : Z) attempts m r m' l :
  loop q N attempts m = (r, m', l) ->
  executor_calls l + generation_failures l
  + (match r with inl (SafetyViolationError _) => 1 | _ => 0 end)
  = attempts_made l.
Proof.
  revert attempts m r m' l.
  loop_induction; intros; cbn; try reflexivity.
  - unfold executor_calls, generation_failures, attempts_made in *. cbn. lia.
  - unfold executor_calls, generation_failures, attempts_made in *. cbn. lia.
Qed.

(** Only texts that passed the validator reach the executor. *)
Lemma loop_executed_validated (q : string) (N : Z) attempts m r m' l :
  loop q N attempts m = (r, m', l) ->
  forall s res, In (EvExecute s res) l -> validate_sql_safety s = inr true.
Proof.
  revert attempts m r m' l.
  loop_induction; intros; cbn in *;
    repeat match goal with
           | H : _ \/ _ |- _ => destruct H
           | H : False |- _ => contradiction
           | H : EvExecute _ _ = EvExecute _ _ |- _ => injection H as <- <-
           | H : _ = EvExecute _ _ |- _ => discriminate H
           end; eauto.
Qed.

(** The three ways a run ends, and falling off the end of the range. *)
Lemma loop_outcome (q : string) (N : Z) attempts m r m' l :
  loop q N attempts m = (r, m', l) ->
  match r with
  | inr v =>
      (v = PyNone /\ ~ In N attempts)
      \/ exists df s pre p e prompt,
          v = PyTuple [PyDF df; PyStr s]
          /\ l = (pre ++ [EvGenerate p e prompt (inr s); EvExecute s (inr df)])%list
  | inl (SafetyViolationError msg) =>
      exists pre p e prompt s,
        l = (pre ++ [EvGenerate p e prompt (inr s)])%list
        /\ validate_sql_safety s = inl (SafetyViolationError msg)
  | inl (Exception msg) =>
      exists err pre last before after,
        msg = exhausted_message N err
        /\ l = (pre ++ [last])%list
        /\ failure_text last = Some err
        /\ attempts = (before ++ N :: after)%list
        /\ attempt_ordinals l = (before ++ [N])%list
  end.
Proof.
  revert attempts m r m' l. loop_induction.
  - intros m. left. split; [reflexivity | intros []].
  - intros a rest m e w1 _ ->.
    exists e, [EvAttempt N], (generated q m (inl e)), [], rest. auto.
  - intros a rest m e w1 r m' l _ Ha _ IH. destruct r as [[msg | msg] | v].
    + destruct IH as (pre & p & e' & prompt & s & -> & V).
      exists (EvAttempt a :: generated q m (inl e) :: pre), p, e', prompt, s. auto.
    + destruct IH as (err & pre & last & before & after & -> & -> & F & -> & O).
      exists err, (EvAttempt a :: generated q m (inl e) :: pre), last,
        (a :: before), after.
      cbn. rewrite O. auto.
    + destruct IH as [[-> Hin] | (df & s & pre & p & e' & prompt & -> & ->)].
      * left. split; [reflexivity|]. intros [E | Hin']; congruence.
      * right.
        exists df, s, (EvAttempt a :: generated q m (inl e) :: pre), p, e', prompt. auto.
  - intros a rest m content w1 kw _ _ V.
    exists [EvAttempt a], (previous_sql (locals m)), (error_message (locals m)),
      (prompt_of q m), (_extract_sql content). auto.
  - intros a rest m content w1 df w2 _ _ _. right.
    exists df, (_extract_sql content), [EvAttempt a], (previous_sql (locals m)),
      (error_message (locals m)), (prompt_of q m). auto.
  - intros a rest m content w1 err w2 _ _ _ ->.
    exists ("SQL Error: " ++ err),
      [EvAttempt N; generated q m (inr (_extract_sql content))],
      (EvExecute (_extract_sql content) (inl ("SQL Error: " ++ err))), [], rest. auto.
  - intros a rest m content w1 err w2 r m' l _ _ _ Ha _ IH.
    set (g := generated q m (inr (_extract_sql content))).
    set (x := EvExecute (_extract_sql content) (inl ("SQL Error: " ++ err))).
    destruct r as [[msg | msg] | v].
    + destruct IH as (pre & p & e' & prompt & s & -> & V).
      exists (EvAttempt a :: g :: x :: pre), p, e', prompt, s. auto.
    + destruct IH as (err' & pre & last & before & after & -> & -> & F & -> & O).
      exists err', (EvAttempt a :: g :: x :: pre), last, (a :: before), after.
      cbn. rewrite O. auto.
    + destruct IH as [[-> Hin] | (df & s & pre & p & e' & prompt & -> & ->)].
      * left. split; [reflexivity|]. intros [E | Hin']; congruence.
      * right. exists df, s, (EvAttempt a :: g :: x :: pre), p, e', prompt. auto.
Qed.

Lemma range_nonpositive (N : Z) : (N <= 0)%Z -> range 1 (N + 1) = [].
Proof.
  intros H. unfold range. replace (Z.to_nat (N + 1 - 1)) with 0%nat by lia. reflexivity.
Qed.

Lemma range_length (N : Z) : length (range 1 (N + 1)) = Z.to_nat N.
Proof.
  unfold range. rewrite length_map, length_seq. f_equal. lia.
Qed.

Lemma range_In (N k : Z) : In k (range 1 (N + 1)) <-> (1 <= k <= N)%Z.
Proof.
  unfold range. rewrite in_map_iff. split.
  - intros (i & <- & Hi). apply in_seq in Hi. lia.
  - intros H. exists (Z.to_nat (k - 1)). split; [lia|]. apply in_seq. lia.
Qed.



(** The position of an ordinal in the range is the ordinal itself. *)
Lemma range_position (N k : Z) (before after : list Z) :
  range 1 (N + 1) = (before ++ k :: after)%list -> Z.of_nat (length before) = (k - 1)%Z.
Proof.
  intros H.
  assert (E : nth_error (range 1 (N + 1)) (length before) = Some k)
    by (rewrite H, nth_error_app2, Nat.sub_diag by lia; reflexivity).
  unfold range in E. rewrite nth_error_map in E.
  rewrite nth_error_seq in E.
  destruct (length before <? _)%nat; [|discriminate].
  cbv [option_map] in E.
  assert (E' : (1 + Z.of_nat (0 + length before))%Z = k) by congruence.
  lia.
Qed.

Lemma range_cons (lo hi : Z) :
  (lo < hi)%Z -> range lo hi = lo :: range (lo + 1) hi.
Proof.
  intros H. unfold range.
  replace (Z.to_nat (hi - lo)) with (S (Z.to_nat (hi - (lo + 1)))) by lia.
  cbn [seq map]. f_equal; [lia|].
  rewrite <- seq_shift, map_map. apply map_ext. intros i. lia.
Qed.

(** A run is the loop over [1 .. max_retries], started with nothing bound. *)
Lemma run_loop (q : string) (N : Z) (w : World) :
  run chat read_sql schema_context q N w =
  let '(r, m, l) := loop q N (range 1 (N + 1)) (mkMachine (mkFrame None None None) w) in
  (r, world m, l).
Proof.
  unfold run, execute_with_retry, bind, set_locals. cbn [world locals].
  destruct (loop _ _ _ _) as [[r m] l]. reflexivity.
Qed.

Lemma run_inv (q : string) (N : Z) (w : World) r w' l :
  run chat read_sql schema_context q N w = (r, w', l) ->
  exists m', loop q N (range 1 (N + 1)) (mkMachine (mkFrame None None None) w) = (r, m', l)
             /\ world m' = w'.
Proof.
  rewrite run_loop. destruct (loop _ _ _ _) as [[r1 m1] l1].
  intros [= <- <- <-]. eauto.
Qed.

Lemma attempts_within_range (q : string) (N : Z) attempts m r m' l :
  loop q N attempts m = (r, m', l) -> attempts_made l <= length attempts.
Proof.
  intros H. apply loop_attempts in H as [_ H].
  apply (f_equal (@length Z)) in H. rewrite length_firstn in H.
  unfold attempts_made at 1. lia.
Qed.

(** C10: with [max_retries] at most zero the range is empty: nothing is
    generated, validated or executed, the world is left as it was, no
    exception is raised and the call returns [None]. *)
Theorem no_attempts_returns_none (q : string) (N : Z) (w : World) :
  (N <= 0)%Z ->
  run chat read_sql schema_context q N w = (inr PyNone, w, []).
Proof.
  intros H. rewrite run_loop, range_nonpositive by assumption. reflexivity.
Qed.

(** C3: with [max_retries = N >= 1] a run always ends, after at most [N]
    attempts, at most [N] calls of the generator and at most [N] calls of the
    executor, in one of three ways: the pair of a success, the safety
    violation, or the failure that reports the exhausted attempts. *)
Theorem bounded_attempts (q : string) (N : Z) (w : World) :
  (1 <= N)%Z ->
  exists r w' l,
    run chat read_sql schema_context q N w = (r, w', l)
    /\ (Z.of_nat (attempts_made l) <= N)%Z
    /\ (Z.of_nat (generator_calls l) <= N)%Z
    /\ (Z.of_nat (executor_calls l) <= N)%Z
    /\ ((exists df s, r = inr (PyTuple [PyDF df; PyStr s]))
        \/ (exists msg, r = inl (SafetyViolationError msg))
        \/ (exists err, r = inl (Exception (exhausted_message N err)))).
Proof.
  intros HN.
  destruct (run chat read_sql schema_context q N w) as [[r w'] l] eqn:R.
  exists r, w', l. split; [reflexivity|].
  apply run_inv in R as (m' & L & _).
  pose proof (attempts_within_range _ _ _ _ _ _ _ L) as Hlen.
  rewrite range_length in Hlen.
  pose proof (loop_attempts _ _ _ _ _ _ _ L) as [Hgen _].
  pose proof (loop_executor_calls _ _ _ _ _ _ _ L) as Hexec.
  pose proof (loop_outcome _ _ _ _ _ _ _ L) as Hout.
  repeat split; try lia.
  destruct r as [[msg | msg] | v].
  - right. left. eauto.
  - right. right. destruct Hout as (err & _ & _ & _ & _ & -> & _). eauto.
  - left. destruct Hout as [[_ Hin] | (df & s & _ & _ & _ & _ & -> & _)]; [|eauto].
    exfalso. apply Hin, range_In. lia.
Qed.

(** In every run, whatever the two collaborators answer, an ASCII text with
    a case-insensitive whole-word occurrence of a blocked keyword is never
    handed to [db_manager.execute_query], in any attempt. *)
Theorem blocked_ascii_text_is_never_executed
        (q : string) (N : Z) (w : World) r w' l (text : string) :
  run chat read_sql schema_context q N w = (r, w', l) ->
  Str.isascii text = true ->
  blocked text ->
  forall result, ~ In (EvExecute text result) l.
Proof.
  intros R _ Hblocked result Hin. apply run_inv in R as (m' & L & _).
  apply (loop_executed_validated _ _ _ _ _ _ _ L) in Hin.
  apply ValidatorFacts.validate_ok_iff in Hin. contradiction.
Qed.


Lemma contains_app_r (x a : string) : Str.contains x (a ++ x) = true.
Proof.
  rewrite <- (StrFacts.app_empty_r x) at 2. apply ContainsFacts.contains_app.
Qed.

Lemma contains_head (x b : string) : Str.contains x (x ++ b) = true.
Proof. apply (ContainsFacts.contains_app x "" b). Qed.

Lemma contains_skip (x a s : string) :
  Str.contains x s = true -> Str.contains x (a ++ s) = true.
Proof.
  intros H. apply ContainsFacts.contains_iff in H as (a' & b & ->).
  rewrite <- StrFacts.app_assoc. apply ContainsFacts.contains_app.
Qed.



(** C5 (amended): when the last attempt has failed with a retryable error,
    the exception handed to the caller reads
    [Failed after N attempts. Last error: <message>] and nothing more: it
    carries the number of attempts made, which is [max_retries], and the
    message of the failure of the last attempt, the final event of the run;
    no query text is added to it. *)
Theorem exhausted_retries_message (q : string) (N : Z) (w : World) msg w' l :
  run chat read_sql schema_context q N w = (inl (Exception msg), w', l) ->
  exists err pre last,
    msg = "Failed after " ++ Str.of_Z N ++ " attempts. Last error: " ++ err
    /\ l = (pre ++ [last])%list
    /\ failure_text last = Some err
    /\ Z.of_nat (attempts_made l) = N
    /\ Str.contains (Str.of_Z N) msg = true
    /\ Str.contains err msg = true.
Proof.
  intros R. apply run_inv in R as (m' & L & _).
  pose proof (loop_outcome _ _ _ _ _ _ _ L)
    as (err & pre & last & before & after & -> & El & F & Hrange & Hord).
  exists err, pre, last. split; [reflexivity|]. split; [assumption|].
  split; [assumption|]. split; [|split].
  - apply range_position in Hrange. unfold attempts_made.
    rewrite Hord, length_app. cbn. lia.
  - apply ContainsFacts.contains_app.
  - unfold exhausted_message.
    rewrite <- !StrFacts.app_assoc. apply contains_app_r.
Qed.

(** C6 (amended): with [max_retries >= 1] a successful run returns the pair
    [(df, sql)], the rows and the text that was generated and executed last;
    no attempt count is part of the value.  When the generator and the
    executor succeed at the first try, exactly one attempt is made: one call
    of each. *)
Theorem success_returns_pair (q : string) (N : Z) (w : World) :
  (1 <= N)%Z ->
  (forall v w' l,
      run chat read_sql schema_context q N w = (inr v, w', l) ->
      exists df text pre p e prompt,
        v = PyTuple [PyDF df; PyStr text]
        /\ l = (pre ++ [EvGenerate p e prompt (inr text);
                        EvExecute text (inr df)])%list)
  /\ (forall content w1 df w2,
        chat SYSTEM_PROMPT (_build_initial_prompt schema_context q) w = (inr content, w1) ->
        validate_sql_safety (_extract_sql content) = inr true ->
        read_sql (_extract_sql content) w1 = (inr df, w2) ->
        exists l,
          run chat read_sql schema_context q N w
          = (inr (PyTuple [PyDF df; PyStr (_extract_sql content)]), w2, l)
          /\ l = [EvAttempt 1;
                  EvGenerate None None (_build_initial_prompt schema_context q)
                             (inr (_extract_sql content));
                  EvExecute (_extract_sql content) (inr df)]
          /\ attempts_made l = 1 /\ generator_calls l = 1 /\ executor_calls l = 1).
Proof.
  intros HN. split.
  - intros v w' l R. apply run_inv in R as (m' & L & _).
    pose proof (loop_outcome _ _ _ _ _ _ _ L) as [[_ Hin] | H]; [|exact H].
    exfalso. apply Hin, range_In. lia.
  - intros content w1 df w2 C V R. eexists. split; [|split; [reflexivity|]].
    + rewrite run_loop, (range_cons 1 (N + 1)) by lia.
      rewrite for_attempts_cons. cbn [locals world previous_sql error_message build_prompt].
      rewrite C. cbv zeta. rewrite V, R. reflexivity.
    + repeat split.
Qed.

(** What a turn starts with: the request is built from the two locals. *)
Lemma loop_head (q : string) (N : Z) attempts m r m' l :
  loop q N attempts m = (r, m', l) ->
  match attempts with
  | [] => l = []
  | a :: _ => exists result tail, l = EvAttempt a :: generated q m result :: tail
  end.
Proof.
  revert attempts m r m' l. loop_induction; intros; eauto.
Qed.

(** C7 (amended): a generation failure on attempt 1 is retried when attempts
    remain.  The message of the failure is what attempt 2 passes to
    [generate_safe_sql] as [error_message], with no previous query; since the
    healing prompt needs both, the request of attempt 2 is the plain initial
    prompt again. *)
Theorem generation_failure_is_retried (q : string) (N : Z) (w : World) e w1 :
  (1 < N)%Z ->
  chat SYSTEM_PROMPT (_build_initial_prompt schema_context q) w = (inl e, w1) ->
  exists r w' result rest,
    run chat read_sql schema_context q N w
    = (r, w',
       EvAttempt 1
       :: EvGenerate None None (_build_initial_prompt schema_context q) (inl e)
       :: EvAttempt 2
       :: EvGenerate None (Some e) (_build_initial_prompt schema_context q) result
       :: rest).
Proof.
  intros HN C. rewrite run_loop, (range_cons 1 (N + 1)) by lia.
  rewrite (range_cons (1 + 1) (N + 1)) by lia.
  rewrite for_attempts_cons. cbn [locals world previous_sql error_message build_prompt sql].
  rewrite C. cbv zeta. destruct (Z.eqb_spec 1 N) as [E | _]; [lia|].
  destruct (loop _ _ _ _) as [[r m'] l] eqn:L.
  apply loop_head in L as (result & tail & ->).
  exists r, (world m'), result, tail. reflexivity.
Qed.

Lemma loop_healing (q : string) (N : Z) attempts m r m' l :
  loop q N attempts m = (r, m', l) ->
  forall pre s err k p e prompt res post,
    l = (pre ++ EvExecute s (inl err) :: EvAttempt k :: EvGenerate p e prompt res
             :: post)%list ->
    p = Some s /\ e = Some err
    /\ prompt = build_prompt schema_context q (Some s) (Some err)
    /\ exists x, err = "SQL Error: " ++ x.
Proof.
  revert attempts m r m' l. loop_induction.
  - intros m pre * H. destruct pre; discriminate.
  - intros a rest m e w1 _ _ pre * H.
    destruct pre as [|? [|? [|? ?]]]; discriminate.
  - intros a rest m e w1 r m' l _ _ L IH pre * H.
    destruct pre as [|x [|y pre]]; try discriminate.
    injection H as _ _ H. eapply IH. eassumption.
  - intros a rest m content w1 kw _ _ _ pre * H.
    destruct pre as [|? [|? [|? ?]]]; discriminate.
  - intros a rest m content w1 df w2 _ _ _ pre * H.
    destruct pre as [|? [|? [|? [|? ?]]]]; discriminate.
  - intros a rest m content w1 err w2 _ _ _ _ pre * H.
    destruct pre as [|? [|? [|? [|? ?]]]]; discriminate.
  - intros a rest m content w1 err w2 r m' l _ _ _ _ L IH pre * H.
    destruct pre as [|x [|y [|z pre]]]; try discriminate.
    + injection H as _ _ Hs Herr H. subst.
      apply loop_head in L. destruct rest; [discriminate|].
      destruct L as (result & tail & E).
      cbn [locals previous_sql error_message] in E.
      inversion E; subst.
      split; [reflexivity|]. split; [reflexivity|]. split; [reflexivity|].
      eexists. reflexivity.
    + injection H as _ _ _ H. eapply IH. eassumption.
Qed.

(** C4 (amended): when an attempt produced a non-empty query text whose
    execution failed, the next attempt sends the healing prompt built from
    the question, that query text and that error message, so the request
    contains both literally and depends on no earlier attempt. *)
Theorem healing_feeds_forward (q : string) (N : Z) (w : World) r w' l
        pre text err k p e prompt result post :
  run chat read_sql schema_context q N w = (r, w', l) ->
  l = (pre ++ [EvExecute text (inl err); EvAttempt k; EvGenerate p e prompt result]
           ++ post)%list ->
  text <> "" ->
  p = Some text /\ e = Some err
  /\ prompt = _build_healing_prompt schema_context q text err
  /\ Str.contains text prompt = true
  /\ Str.contains err prompt = true.
Proof.
  intros R El Htext. apply run_inv in R as (m' & L & _).
  destruct (loop_healing _ _ _ _ _ _ _ L _ _ _ _ _ _ _ _ _ El)
    as (-> & -> & -> & x & ->).
  assert (E : build_prompt schema_context q (Some text) (Some ("SQL Error: " ++ x))
              = _build_healing_prompt schema_context q text ("SQL Error: " ++ x))
    by (destruct text; [contradiction | reflexivity]).
  rewrite E. split; [reflexivity|]. split; [reflexivity|]. split; [reflexivity|].
  unfold _build_healing_prompt.
  split; repeat first [apply contains_head | apply contains_skip].
Qed.

End RetryFacts.

(* ------------------------------------------------------------------------- *)
(** * Response extraction *)
(* ------------------------------------------------------------------------- *)

Module FenceFacts.

Import StrFacts ContainsFacts.

Lemma backtick_nocase (c : ascii) : Char.eqb_nocase "`" c = Ascii.eqb "`" c.
Proof. CharFacts.by_cases c. Qed.

Lemma space_not_backtick (c : ascii) : Char.is_space c = true -> Ascii.eqb "`" c = false.
Proof. destruct c as [[] [] [] [] [] [] [] []]; vm_compute; congruence. Qed.

(** The literal fence, under [re.IGNORECASE], is the plain fence. *)
Lemma lit_fence {A} (k : string -> option A) (s : string) :
  Backtrack.lit FENCE k s = if Str.startswith FENCE s then k (Str.drop 3 s) else None.
Proof.
  unfold FENCE.
  destruct s as [|a [|b [|c s]]];
    cbn [Backtrack.lit Str.startswith Str.drop]; rewrite ?backtick_nocase;
    repeat match goal with
           | |- context [Ascii.eqb ?x ?y] => destruct (Ascii.eqb x y); cbn [andb]
           end; reflexivity.
Qed.

Lemma startswith_fence_space (c : ascii) (s : string) :
  Char.is_space c = true -> Str.startswith FENCE (String c s) = false.
Proof.
  intros H. unfold FENCE. cbn [Str.startswith].
  rewrite (space_not_backtick c H). reflexivity.
Qed.

Lemma contains_fence_space (c : ascii) (s : string) :
  Char.is_space c = true -> Str.contains FENCE (String c s) = Str.contains FENCE s.
Proof.
  intros H. cbn [Str.contains]. rewrite (startswith_fence_space c s H). reflexivity.
Qed.

Lemma contains_fence_lstrip (s : string) :
  Str.contains FENCE (Str.lstrip s) = Str.contains FENCE s.
Proof.
  induction s as [|c s IH]; [reflexivity|]. cbn [Str.lstrip].
  destruct (Char.is_space c) eqn:E; [|reflexivity].
  rewrite IH. symmetry. apply contains_fence_space. assumption.
Qed.

(** [\s*] followed by the closing fence. *)
Lemma spaces_fence {A} (x : A) (s : string) :
  Backtrack.spaces (Backtrack.lit FENCE (fun _ => Some x)) s
  = if Str.startswith FENCE (Str.lstrip s) then Some x else None.
Proof.
  induction s as [|c s IH].
  - reflexivity.
  - cbn [Backtrack.spaces Str.lstrip]. destruct (Char.is_space c) eqn:E.
    + rewrite IH. destruct (Str.startswith FENCE (Str.lstrip s)); [reflexivity|].
      rewrite lit_fence, startswith_fence_space by assumption. reflexivity.
    + rewrite lit_fence. reflexivity.
Qed.

Lemma lazy_any_ext {A} (k k' : string -> string -> option A) (s : string) :
  (forall g t, k g t = k' g t) -> Backtrack.lazy_any k s = Backtrack.lazy_any k' s.
Proof.
  revert k k'. induction s as [|c s IH]; intros k k' H; cbn; rewrite H.
  - reflexivity.
  - destruct (k' "" (String c s)); [reflexivity|]. apply IH. intros g t. apply H.
Qed.

(** White space up to a fence: nothing is left of the text before the fence. *)
Lemma fence_after_spaces (s : string) :
  Str.startswith FENCE (Str.lstrip s) = true ->
  Str.contains FENCE s = true /\ Str.rstrip (Str.split_head FENCE s) = "".
Proof.
  induction s as [|c s IH]; [discriminate|]. cbn [Str.lstrip].
  destruct (Char.is_space c) eqn:E.
  - intros H. destruct (IH H) as [H1 H2].
    rewrite contains_fence_space by assumption. split; [assumption|].
    cbn [Str.split_head]. rewrite startswith_fence_space by assumption.
    cbn [Str.rstrip]. rewrite H2, E. reflexivity.
  - intros H. split; [apply contains_here; assumption|].
    cbn [Str.split_head]. rewrite H. reflexivity.
Qed.

Lemma spaces_before_fence (s : string) :
  Str.contains FENCE s = true ->
  Str.rstrip (Str.split_head FENCE s) = "" ->
  Str.startswith FENCE (Str.lstrip s) = true.
Proof.
  induction s as [|c s IH]; [discriminate|].
  cbn [Str.contains Str.split_head Str.lstrip].
  destruct (Str.startswith FENCE (String c s)) eqn:F.
  - intros _ _. destruct (Char.is_space c) eqn:E; [|assumption].
    rewrite startswith_fence_space in F by assumption. discriminate.
  - cbn [orb Str.rstrip]. intros Hc Hr.
    destruct (Str.rstrip (Str.split_head FENCE s)) eqn:R; [|discriminate].
    destruct (Char.is_space c); [|discriminate]. apply IH; auto.
Qed.

(** The lazy group followed by [\s*] and the closing fence stops in front of
    the white space that precedes the next fence. *)
Lemma lazy_body (s pre : string) :
  Backtrack.lazy_any
    (fun g => Backtrack.spaces (Backtrack.lit FENCE (fun _ => Some (pre ++ g)))) s
  = if Str.contains FENCE s
    then Some (pre ++ Str.rstrip (Str.split_head FENCE s))
    else None.
Proof.
  revert pre. induction s as [|c s IH]; intros pre.
  - reflexivity.
  - cbn [Backtrack.lazy_any]. rewrite spaces_fence.
    destruct (Str.startswith FENCE (Str.lstrip (String c s))) eqn:F.
    + destruct (fence_after_spaces _ F) as [-> ->]. reflexivity.
    + assert (F0 : Str.startswith FENCE (String c s) = false).
      { cbn [Str.lstrip] in F. destruct (Char.is_space c) eqn:E; [|assumption].
        apply startswith_fence_space. assumption. }
      rewrite (lazy_any_ext _
                 (fun g => Backtrack.spaces
                             (Backtrack.lit FENCE (fun _ => Some ((pre ++ String c "") ++ g)))))
        by (intros g t; rewrite app_assoc; reflexivity).
      rewrite IH. cbn [Str.contains Str.split_head]. rewrite F0. cbn [orb].
      destruct (Str.contains FENCE s) eqn:C; [|reflexivity].
      rewrite app_assoc. cbn [append Str.rstrip].
      destruct (Str.rstrip (Str.split_head FENCE s)) eqn:R; [|reflexivity].
      destruct (Char.is_space c) eqn:E; [|reflexivity].
      exfalso. pose proof (spaces_before_fence s C R) as F1.
      cbn [Str.lstrip] in F. rewrite E in F. congruence.
Qed.

Lemma lazy_body_plain (s : string) :
  Backtrack.lazy_any
    (fun g => Backtrack.spaces (Backtrack.lit FENCE (fun _ => Some g))) s
  = if Str.contains FENCE s
    then Some (Str.rstrip (Str.split_head FENCE s))
    else None.
Proof. exact (lazy_body s ""). Qed.

Lemma fence_body_none (s : string) :
  fence_body s = None <-> Str.contains FENCE s = false.
Proof.
  unfold fence_body. rewrite contains_fence_lstrip.
  destruct (Str.contains FENCE s); split; congruence.
Qed.

(** [\s*(.*?)\s*```]: the body up to the next fence. *)
Lemma spaces_lazy_body (s : string) :
  Backtrack.spaces
    (Backtrack.lazy_any
       (fun g => Backtrack.spaces (Backtrack.lit FENCE (fun _ => Some g)))) s
  = fence_body s.
Proof.
  induction s as [|c s IH]; [reflexivity|].
  cbn [Backtrack.spaces]. destruct (Char.is_space c) eqn:E.
  - rewrite IH. unfold fence_body at 2. cbn [Str.lstrip]. rewrite E.
    fold (fence_body s). destruct (fence_body s) eqn:B; [reflexivity|].
    rewrite (lazy_body_plain (String c s)), contains_fence_space by assumption.
    apply fence_body_none in B. rewrite B. reflexivity.
  - rewrite (lazy_body_plain (String c s)). unfold fence_body. cbn [Str.lstrip].
    rewrite E. reflexivity.
Qed.

Lemma tag_not_backtick (p c : ascii) :
  In p ["s"; "q"; "l"]%char -> Char.eqb_nocase p c = true -> Ascii.eqb "`" c = false.
Proof.
  intros [<- | [<- | [<- | []]]];
    destruct c as [[] [] [] [] [] [] [] []]; vm_compute; congruence.
Qed.

Lemma contains_fence_cons (c : ascii) (s : string) :
  Ascii.eqb "`" c = false -> Str.contains FENCE (String c s) = Str.contains FENCE s.
Proof.
  intros H. cbn [Str.contains]. unfold FENCE at 1. cbn [Str.startswith].
  rewrite H. reflexivity.
Qed.

(** [(?:sql)?] in front of the body: the tag is skipped when it is there. *)
Lemma tag_then_body (s : string) :
  Backtrack.opt (Backtrack.lit "sql") fence_body s = fence_body (skip_tag s).
Proof.
  unfold Backtrack.opt, skip_tag.
  destruct s as [|a [|b [|c r]]]; cbn [Backtrack.lit];
    repeat match goal with
           | |- context [Char.eqb_nocase ?x ?y] =>
               let E := fresh "E" in destruct (Char.eqb_nocase x y) eqn:E; cbn [andb]
           end; try reflexivity.
  destruct (fence_body r) eqn:B; [reflexivity|].
  apply fence_body_none. apply fence_body_none in B.
  rewrite !contains_fence_cons; [assumption | | |];
    eapply tag_not_backtick; try eassumption; simpl; auto.
Qed.

Lemma opt_ext {A} (r : (string -> option A) -> string -> option A)
      (k k' : string -> option A) (s : string) :
  (forall k k' t, (forall u, k u = k' u) -> r k t = r k' t) ->
  (forall u, k u = k' u) ->
  Backtrack.opt r k s = Backtrack.opt r k' s.
Proof. intros Hr Hk. unfold Backtrack.opt. rewrite (Hr k k' s Hk), Hk. reflexivity. Qed.

Lemma lit_ext {A} (p : string) (k k' : string -> option A) (s : string) :
  (forall u, k u = k' u) -> Backtrack.lit p k s = Backtrack.lit p k' s.
Proof.
  intros Hk. revert s. induction p as [|a p IH]; intros s; cbn; [apply Hk|].
  destruct s as [|b s]; [reflexivity|]. destruct (Char.eqb_nocase a b); auto.
Qed.

(** The whole pattern at one position. *)
Lemma code_block_here_eq (s : string) :
  code_block_here s
  = if Str.startswith FENCE s then fence_body (skip_tag (Str.drop 3 s)) else None.
Proof.
  unfold code_block_here. rewrite lit_fence.
  destruct (Str.startswith FENCE s); [|reflexivity].
  rewrite <- tag_then_body. apply opt_ext; [|apply spaces_lazy_body].
  intros k k' t Hk. apply lit_ext. assumption.
Qed.

Lemma contains_drop1 (x s : string) :
  Str.contains x (Str.drop 1 s) = true -> Str.contains x s = true.
Proof.
  destruct s as [|c s]; cbn [Str.drop]; [auto|].
  intros H. cbn [Str.contains]. rewrite H. apply orb_true_r.
Qed.

Lemma contains_fence_skip_tag (s : string) :
  Str.contains FENCE (skip_tag s) = true -> Str.contains FENCE s = true.
Proof.
  unfold skip_tag. destruct s as [|a [|b [|c r]]]; auto.
  destruct (_ && _); auto. intros H.
  apply contains_drop1, contains_drop1, contains_drop1. exact H.
Qed.

(** A match needs a second fence after the first one. *)
Lemma code_block_here_some (s g : string) :
  code_block_here s = Some g -> Str.contains FENCE (Str.drop 3 s) = true.
Proof.
  rewrite code_block_here_eq. destruct (Str.startswith FENCE s); [|discriminate].
  intros H. apply contains_fence_skip_tag.
  destruct (Str.contains FENCE (skip_tag (Str.drop 3 s))) eqn:C; [reflexivity|].
  apply fence_body_none in C. congruence.
Qed.

Lemma drop_1_2 (s : string) : Str.drop 1 (Str.drop 2 s) = Str.drop 3 s.
Proof. destruct s as [|a [|b [|c s]]]; reflexivity. Qed.

Lemma leftmost_some (s g : string) :
  Backtrack.leftmost code_block_here s = Some g ->
  Str.contains FENCE (Str.drop 2 s) = true.
Proof.
  induction s as [|c s IH]; cbn [Backtrack.leftmost].
  - destruct (code_block_here "") eqn:H; [|discriminate].
    intros _. apply code_block_here_some in H. discriminate.
  - destruct (code_block_here (String c s)) eqn:H.
    + intros _. apply code_block_here_some in H. rewrite <- drop_1_2 in H.
      apply contains_drop1. assumption.
    + intros L. apply IH in L. apply contains_drop1.
      rewrite drop_1_2. destruct s as [|a [|b s]]; exact L.
Qed.

(** The first match of the pattern is the first fenced block. *)
Lemma findall_first_eq (s : string) : findall_first s = first_fenced_block s.
Proof.
  unfold findall_first, first_fenced_block.
  induction s as [|c s IH]; [reflexivity|].
  cbn [Backtrack.leftmost after_first]. rewrite code_block_here_eq.
  destruct (Str.startswith FENCE (String c s)) eqn:F.
  - change (String.length FENCE) with 3.
    destruct (fence_body (skip_tag (Str.drop 3 (String c s)))) eqn:B; [reflexivity|].
    destruct (Backtrack.leftmost code_block_here s) eqn:L; [|reflexivity].
    exfalso. apply leftmost_some in L.
    assert (C : Str.contains FENCE (skip_tag (Str.drop 3 (String c s))) = false)
      by (apply fence_body_none; assumption).
    assert (C' : Str.contains FENCE (Str.drop 3 (String c s)) = true)
      by (destruct s as [|a [|b s]]; exact L).
    clear - C C'.
    revert C C'. generalize (Str.drop 3 (String c s)). intros r C C'.
    unfold skip_tag in C. destruct r as [|a [|b [|d r]]]; try congruence.
    destruct (Char.eqb_nocase "s" a) eqn:E1; cbn [andb] in C; [|congruence].
    destruct (Char.eqb_nocase "q" b) eqn:E2; cbn [andb] in C; [|congruence].
    destruct (Char.eqb_nocase "l" d) eqn:E3; cbn [andb] in C; [|congruence].
    rewrite !contains_fence_cons in C'; [congruence | | |];
      eapply tag_not_backtick; try eassumption; simpl; auto.
  - exact IH.
Qed.

End FenceFacts.

Module StripFacts.

Import StrFacts ContainsFacts.

Lemma rstrip_idempotent (s : string) : Str.rstrip (Str.rstrip s) = Str.rstrip s.
Proof.
  induction s as [|c s IH]; [reflexivity|]. cbn [Str.rstrip].
  destruct (Str.rstrip s) as [|d r] eqn:R.
  - destruct (Char.is_space c) eqn:E; [reflexivity|]. cbn. rewrite E. reflexivity.
  - cbn [Str.rstrip]. cbn [Str.rstrip] in IH. rewrite IH. reflexivity.
Qed.

Lemma lstrip_head (s : string) : starts_with_space (Str.lstrip s) = false.
Proof.
  induction s as [|c s IH]; [reflexivity|]. cbn [Str.lstrip].
  destruct (Char.is_space c) eqn:E; [assumption|]. cbn. assumption.
Qed.

Lemma rstrip_head (s : string) :
  starts_with_space s = false -> starts_with_space (Str.rstrip s) = false.
Proof.
  destruct s as [|c s]; [reflexivity|]. cbn [starts_with_space Str.rstrip].
  intros E. rewrite E. destruct (Str.rstrip s); cbn; assumption.
Qed.

Lemma lstrip_noop (s : string) : starts_with_space s = false -> Str.lstrip s = s.
Proof. destruct s as [|c s]; cbn; [reflexivity|]. intros ->. reflexivity. Qed.

Lemma strip_head (s : string) : starts_with_space (Str.strip s) = false.
Proof. apply rstrip_head, lstrip_head. Qed.

Lemma strip_noop_left (s : string) :
  starts_with_space s = false -> Str.strip s = Str.rstrip s.
Proof. intros H. unfold Str.strip. rewrite lstrip_noop by assumption. reflexivity. Qed.

Lemma strip_idempotent (s : string) : Str.strip (Str.strip s) = Str.strip s.
Proof.
  rewrite (strip_noop_left (Str.strip s)) by apply strip_head.
  apply rstrip_idempotent.
Qed.

Lemma rstrip_strip (s : string) : Str.rstrip (Str.strip s) = Str.strip s.
Proof. apply rstrip_idempotent. Qed.

(** A text is its [rstrip] followed by white space. *)
Lemma rstrip_decomp (s : string) :
  exists ws, s = Str.rstrip s ++ ws /\ Str.rstrip ws = "".
Proof.
  induction s as [|c s (ws & E & W)].
  - exists "". auto.
  - cbn [Str.rstrip]. destruct (Str.rstrip s) as [|d r] eqn:R.
    + cbn in E. subst ws. destruct (Char.is_space c) eqn:S.
      * exists (String c s). split; [reflexivity|]. cbn. rewrite W, S. reflexivity.
      * exists s. auto.
    + exists ws. split; [|assumption]. cbn. f_equal. exact E.
Qed.

Lemma rstrip_cons_congr (c : ascii) (a b : string) :
  Str.rstrip a = Str.rstrip b -> Str.rstrip (String c a) = Str.rstrip (String c b).
Proof. intros H. cbn. rewrite H. reflexivity. Qed.

(** White space has no room for a text that does not end in white space. *)
Lemma startswith_spaces (p ws : string) :
  Str.startswith p ws = true -> Str.rstrip ws = "" -> Str.rstrip p = "".
Proof.
  revert ws. induction p as [|a p IH]; intros ws H W; [reflexivity|].
  destruct ws as [|b ws]; [discriminate|]. cbn in H.
  apply andb_true_iff in H as [Hab H]. apply Ascii.eqb_eq in Hab as ->.
  cbn in W. destruct (Str.rstrip ws) eqn:R; [|discriminate].
  destruct (Char.is_space b) eqn:S; [|discriminate].
  cbn. rewrite (IH ws H R), S. reflexivity.
Qed.

Lemma rstrip_tail (a : ascii) (p : string) :
  p <> "" -> Str.rstrip (String a p) = String a p -> Str.rstrip p = p.
Proof.
  intros Hp H. cbn in H. destruct (Str.rstrip p) eqn:R.
  - destruct (Char.is_space a); [discriminate|]. injection H as <-. contradiction.
  - injection H as <-. reflexivity.
Qed.

Lemma startswith_trailing_spaces (sep r ws : string) :
  sep <> "" -> Str.rstrip sep = sep -> Str.rstrip ws = "" ->
  Str.startswith sep (r ++ ws) = Str.startswith sep r.
Proof.
  revert sep. induction r as [|c r IH]; intros sep Hne Hsep W.
  - cbn [append]. destruct sep as [|a sep]; [contradiction|].
    destruct (Str.startswith (String a sep) ws) eqn:H; [|reflexivity].
    apply startswith_spaces in H; [|assumption]. congruence.
  - destruct sep as [|a sep]; [contradiction|]. cbn [append Str.startswith].
    destruct sep as [|b sep]; [reflexivity|].
    rewrite IH; [reflexivity | discriminate | | assumption].
    eapply rstrip_tail; [discriminate | eassumption].
Qed.

Lemma split_head_absent (sep s : string) :
  Str.contains sep s = false -> Str.split_head sep s = s.
Proof.
  induction s as [|c s IH]; cbn [Str.contains Str.split_head]; intros H;
    apply orb_false_iff in H as [H1 H2]; rewrite H1; [reflexivity|].
  rewrite IH by assumption. reflexivity.
Qed.

(** Trailing white space changes neither whether a separator occurs nor what
    is left, trimmed, in front of its first occurrence. *)
Lemma cut_trailing_spaces (sep r ws : string) :
  sep <> "" -> Str.rstrip sep = sep -> Str.rstrip ws = "" ->
  Str.contains sep (r ++ ws) = Str.contains sep r
  /\ Str.rstrip (Str.split_head sep (r ++ ws)) = Str.rstrip (Str.split_head sep r).
Proof.
  intros Hne Hsep W. induction r as [|c r [IH1 IH2]].
  - cbn [append].
    assert (C : Str.contains sep ws = false).
    { destruct (Str.contains sep ws) eqn:C; [|reflexivity].
      apply contains_iff in C as (a & b & ->).
      assert (H : Str.rstrip sep = "").
      { clear - W. induction a as [|c a IH]; cbn [append] in W.
        - eapply startswith_spaces; [apply startswith_app | eassumption].
        - apply IH. cbn in W. destruct (Str.rstrip (a ++ sep ++ b)); [reflexivity|discriminate]. }
      congruence. }
    rewrite C, (split_head_absent _ _ C), W.
    destruct sep; [contradiction | split; reflexivity].
  - pose proof (startswith_trailing_spaces sep (String c r) ws Hne Hsep W) as E.
    cbn [append] in E. cbn [append Str.contains Str.split_head].
    rewrite E, IH1. split; [reflexivity|].
    destruct (Str.startswith sep (String c r)); [reflexivity|].
    apply rstrip_cons_congr. assumption.
Qed.

End StripFacts.

Module MarkerFacts.

Import StrFacts ContainsFacts StripFacts.

Abbreviation nl := (ascii_of_nat 10).
Abbreviation hit markers s := (existsb (fun marker => Str.startswith marker s) markers).

Lemma separators_shape (marker : string) :
  In marker SEPARATORS -> marker_shape marker.
Proof.
  unfold SEPARATORS. simpl.
  intros [<- | [<- | [<- | []]]];
    [exists "This query" | exists "Explanation" | exists "Note:"];
    repeat split; discriminate.
Qed.

Lemma marker_nonempty (marker : string) :
  marker_shape marker -> marker <> "" /\ Str.rstrip marker = marker.
Proof.
  intros (w & -> & Hw & _ & R). split; [discriminate|].
  cbn [NL append Str.rstrip]. rewrite R.
  destruct w; [contradiction | reflexivity].
Qed.

Lemma before_markers_nil (s : string) : before_markers [] s = s.
Proof. induction s; cbn; congruence. Qed.

Lemma before_markers_single (sep s : string) :
  before_markers [sep] s = Str.split_head sep s.
Proof.
  induction s as [|c s IH]; cbn; rewrite orb_false_r.
  - reflexivity.
  - rewrite IH. reflexivity.
Qed.

Lemma before_markers_prefix (markers : list string) (s : string) :
  exists rest, s = before_markers markers s ++ rest.
Proof.
  induction s as [|c s (rest & E)]; cbn [before_markers].
  - exists "". destruct (hit markers ""); reflexivity.
  - destruct (hit markers (String c s)).
    + exists (String c s). reflexivity.
    + exists rest. cbn. f_equal. exact E.
Qed.

Lemma startswith_prefix (p a rest : string) :
  Str.startswith p a = true -> Str.startswith p (a ++ rest) = true.
Proof.
  intros H. apply startswith_inv in H as (post & ->).
  rewrite app_assoc. apply startswith_app.
Qed.

Lemma before_markers_head (markers : list string) (s : string) :
  starts_with_space s = false -> starts_with_space (before_markers markers s) = false.
Proof.
  destruct s as [|c s]; cbn [before_markers]; intros H.
  - destruct (hit markers ""); reflexivity.
  - destruct (hit markers (String c s)); [reflexivity | exact H].
Qed.

(** No separator starts at a character that is not a newline. *)
Lemma hit_not_newline (markers : list string) (d : ascii) (t : string) :
  (forall m, In m markers -> marker_shape m) ->
  Ascii.eqb nl d = false -> hit markers (String d t) = false.
Proof.
  intros Hshape Hd. induction markers as [|m ms IH]; [reflexivity|].
  cbn [existsb]. rewrite IH by (intros; apply Hshape; right; assumption).
  destruct (Hshape m (or_introl eq_refl)) as (w & -> & _).
  cbn [NL append Str.startswith]. rewrite Hd. reflexivity.
Qed.

(** Nor at a single newline. *)
Lemma hit_single_newline (markers : list string) (d : ascii) (t : string) :
  (forall m, In m markers -> marker_shape m) ->
  Ascii.eqb nl d = false -> hit markers (String nl (String d t)) = false.
Proof.
  intros Hshape Hd. induction markers as [|m ms IH]; [reflexivity|].
  cbn [existsb]. rewrite IH by (intros; apply Hshape; right; assumption).
  destruct (Hshape m (or_introl eq_refl)) as (w & -> & _).
  cbn [NL append Str.startswith]. rewrite Hd, andb_false_r. reflexivity.
Qed.

Lemma no_newline_head (d : ascii) (w : string) :
  Str.contains NL (String d w) = false ->
  Ascii.eqb nl d = false /\ Str.contains NL w = false.
Proof.
  cbn [Str.contains NL Str.startswith]. rewrite andb_true_r.
  intros H. apply orb_false_iff in H. exact H.
Qed.

(** The scan walks through a piece of one line. *)
Lemma before_markers_word (markers : list string) (w t : string) :
  (forall m, In m markers -> marker_shape m) ->
  Str.contains NL w = false ->
  before_markers markers (w ++ t) = w ++ before_markers markers t.
Proof.
  intros Hshape. induction w as [|d w IH]; intros Hw; [reflexivity|].
  apply no_newline_head in Hw as [Hd Hw].
  cbn [append before_markers]. rewrite hit_not_newline by assumption.
  rewrite IH by assumption. reflexivity.
Qed.

(** A separator met before any of the others is not cut short by them. *)
Lemma marker_survives (markers : list string) (sep s : string) :
  (forall m, In m markers -> marker_shape m) ->
  marker_shape sep ->
  hit markers s = false ->
  Str.startswith sep s = true ->
  Str.startswith sep (before_markers markers s) = true.
Proof.
  intros Hshape (w & -> & Hne & Hw & _) Hhit H.
  apply startswith_inv in H as (t & ->).
  rewrite !app_assoc in *. cbn [NL append] in *.
  cbn [before_markers]. rewrite Hhit.
  destruct w as [|d w]; [contradiction|].
  pose proof (no_newline_head _ _ Hw) as [Hd Hw'].
  cbn [append before_markers]. rewrite hit_single_newline by assumption.
  rewrite hit_not_newline by assumption.
  rewrite before_markers_word by assumption.
  cbn [Str.startswith]. rewrite !Ascii.eqb_refl. cbn [andb].
  apply startswith_app.
Qed.

(** Cutting at one separator what is left in front of the others is cutting
    at the earliest of them all. *)
Lemma before_markers_snoc (markers : list string) (sep s : string) :
  (forall m, In m markers -> marker_shape m) ->
  marker_shape sep ->
  Str.split_head sep (before_markers markers s) = before_markers (markers ++ [sep]) s.
Proof.
  intros Hshape Hsep. induction s as [|c s IH].
  - cbn [before_markers]. destruct (hit markers ""), (hit (markers ++ [sep]) "");
      cbn; destruct (Str.startswith sep ""); reflexivity.
  - cbn [before_markers]. rewrite existsb_app. cbn [existsb]. rewrite orb_false_r.
    destruct (hit markers (String c s)) eqn:Hhit; cbn [orb].
    + cbn. destruct (Str.startswith sep ""); reflexivity.
    + destruct (Str.startswith sep (String c s)) eqn:F.
      * pose proof (marker_survives markers sep (String c s) Hshape Hsep Hhit F) as F'.
        cbn [before_markers] in F'. rewrite Hhit in F'.
        cbn [Str.split_head]. rewrite F'. reflexivity.
      * cbn [Str.split_head].
        destruct (Str.startswith sep (String c (before_markers markers s))) eqn:F'.
        -- exfalso. destruct (before_markers_prefix markers s) as (rest & E).
           apply (startswith_prefix _ _ rest) in F'. cbn [append] in F'.
           rewrite <- E in F'. congruence.
        -- rewrite IH. reflexivity.
Qed.

Lemma split_head_head (sep s : string) :
  starts_with_space s = false -> starts_with_space (Str.split_head sep s) = false.
Proof.
  intros H. rewrite <- before_markers_single. apply before_markers_head. assumption.
Qed.

(** One turn of the separator loop. *)
Lemma cut_step (markers : list string) (sep s : string) :
  (forall m, In m markers -> marker_shape m) ->
  marker_shape sep ->
  starts_with_space s = false ->
  cut_at (Str.rstrip (before_markers markers s)) sep
  = Str.rstrip (before_markers (markers ++ [sep]) s).
Proof.
  intros Hshape Hsep Hs.
  rewrite <- before_markers_snoc by assumption.
  pose proof (before_markers_head markers s Hs) as Hx.
  generalize dependent (before_markers markers s). intros x Hx.
  destruct (marker_nonempty sep Hsep) as [Hne Hr].
  destruct (rstrip_decomp x) as (ws & E & W).
  destruct (cut_trailing_spaces sep (Str.rstrip x) ws Hne Hr W) as [C S].
  rewrite <- E in C, S. unfold cut_at. rewrite <- C.
  destruct (Str.contains sep x) eqn:Cx.
  - rewrite strip_noop_left by (apply split_head_head, rstrip_head; assumption).
    symmetry. exact S.
  - rewrite split_head_absent by assumption. reflexivity.
Qed.

(** The separator loop cuts a trimmed text at the earliest separator. *)
Lemma cut_separators (s : string) :
  fold_left cut_at SEPARATORS (Str.strip s)
  = Str.strip (before_markers SEPARATORS (Str.strip s)).
Proof.
  pose proof (strip_head s) as Hh. pose proof (rstrip_strip s) as Hr.
  generalize dependent (Str.strip s). intros x Hh Hr.
  rewrite (strip_noop_left (before_markers SEPARATORS x))
    by (apply before_markers_head; assumption).
  unfold SEPARATORS. cbn [fold_left].
  set (T := NL ++ NL ++ "This query").
  set (E := NL ++ NL ++ "Explanation").
  set (N := NL ++ NL ++ "Note:").
  assert (HT : marker_shape T) by (apply separators_shape; simpl; auto).
  assert (HE : marker_shape E) by (apply separators_shape; simpl; auto).
  assert (HN : marker_shape N) by (apply separators_shape; simpl; auto).
  rewrite <- Hr at 1. rewrite <- (before_markers_nil x) at 1.
  rewrite (cut_step [] T x) by (auto; intros ? []). cbn [app].
  rewrite (cut_step [T] E x) by (auto; intros ? [<- | []]; assumption). cbn [app].
  rewrite (cut_step [T; E] N x) by (auto; intros ? [<- | [<- | []]]; assumption).
  reflexivity.
Qed.

End MarkerFacts.


(* ------------------------------------------------------------------------- *)
(** * Concrete runs *)
(* ------------------------------------------------------------------------- *)

Module Runs.

Import Script.


(** [max_retries = 0]: nothing happens. *)
Lemma no_attempts_returns_none_witness :
  (0 <= 0)%Z
  /\ Script.run SCHEMA QUESTION 0 (mkWorld [inr "SELECT 1"] [inr one_row])
     = (inr PyNone, mkWorld [inr "SELECT 1"] [inr one_row], []).
Proof.
  split; [lia|]. apply no_attempts_returns_none. lia.
Defined.

Lemma bounded_attempts_witness :
  (1 <= 3)%Z
  /\ exists r w' l,
      Script.run SCHEMA QUESTION 3
                 (mkWorld [inr "SELECT a"; inl "timeout"; inr "SELECT 1"]
                          [inl "Invalid column name 'a'"; inr one_row])
      = (r, w', l)
      /\ (Z.of_nat (attempts_made l) <= 3)%Z
      /\ (Z.of_nat (generator_calls l) <= 3)%Z
      /\ (Z.of_nat (executor_calls l) <= 3)%Z
      /\ ((exists df s, r = inr (PyTuple [PyDF df; PyStr s]))
          \/ (exists msg, r = inl (SafetyViolationError msg))
          \/ (exists err, r = inl (Exception (exhausted_message 3 err)))).
Proof.
  split; [lia|]. apply bounded_attempts. lia.
Defined.


(** A blocked text comes back from the backend: it is not executed. *)
Lemma blocked_ascii_text_is_never_executed_witness :
  Str.isascii "drop table orders" = true
  /\ blocked "drop table orders"
  /\ forall result,
      ~ In (EvExecute "drop table orders" result)
           (snd (Script.run SCHEMA QUESTION 3 (mkWorld [inr "drop table orders"] []))).
Proof.
  assert (B : blocked "drop table orders").
  { exists "DROP". split; [simpl; auto|].
    exists "", "drop", " table orders". repeat split. }
  split; [reflexivity|]. split; [exact B|].
  apply (blocked_ascii_text_is_never_executed
           _ Script.chat Script.read_sql SCHEMA QUESTION 3
           (mkWorld [inr "drop table orders"] [])
           (inl (SafetyViolationError (safety_message "DROP")))
           (mkWorld [] [])
           [EvAttempt 1; EvGenerate None None INITIAL (inr "drop table orders")]).
  - vm_compute. reflexivity.
  - reflexivity.
  - exact B.
Defined.



(** C4, as stated, fails: attempts 1 and 2 fail in generation; the request of
    attempt 3 is the initial prompt and does not contain the error message of
    attempt 2. *)
Lemma healing_after_generation_failure_counterexample :
  exists r w' prompt,
    Script.run SCHEMA QUESTION 3
               (mkWorld [inl "connection refused"; inl "read timeout"; inr "SELECT 1"]
                        [inr one_row])
    = (r, w',
       [EvAttempt 1; EvGenerate None None INITIAL (inl "connection refused");
        EvAttempt 2; EvGenerate None (Some "connection refused") INITIAL (inl "read timeout");
        EvAttempt 3; EvGenerate None (Some "read timeout") prompt (inr "SELECT 1");
        EvExecute "SELECT 1" (inr one_row)])
    /\ prompt = INITIAL
    /\ Str.contains "read timeout" prompt = false.
Proof.
  do 3 eexists. split; [vm_compute; reflexivity|]. split; vm_compute; reflexivity.
Qed.

Lemma healing_feeds_forward_witness :
  let prompt := _build_healing_prompt SCHEMA QUESTION "SELECT a FROM orders"
                                      "SQL Error: Invalid column name 'a'" in
  Str.contains "SELECT a FROM orders" prompt = true
  /\ Str.contains "SQL Error: Invalid column name 'a'" prompt = true.
Proof.
  intros prompt.
  destruct (healing_feeds_forward _ Script.chat Script.read_sql SCHEMA QUESTION 3
              (mkWorld [inr "SELECT a FROM orders"; inr "SELECT 1"]
                       [inl "Invalid column name 'a'"; inr one_row])
              (inr (PyTuple [PyDF one_row; PyStr "SELECT 1"]))
              (mkWorld [] [])
              [EvAttempt 1; EvGenerate None None INITIAL (inr "SELECT a FROM orders");
               EvExecute "SELECT a FROM orders" (inl "SQL Error: Invalid column name 'a'");
               EvAttempt 2;
               EvGenerate (Some "SELECT a FROM orders")
                          (Some "SQL Error: Invalid column name 'a'")
                          prompt (inr "SELECT 1");
               EvExecute "SELECT 1" (inr one_row)]
              [EvAttempt 1; EvGenerate None None INITIAL (inr "SELECT a FROM orders")]
              "SELECT a FROM orders" "SQL Error: Invalid column name 'a'" 2
              (Some "SELECT a FROM orders") (Some "SQL Error: Invalid column name 'a'")
              prompt (inr "SELECT 1")
              [EvExecute "SELECT 1" (inr one_row)])
    as (_ & _ & _ & Hq & He).
  - vm_compute. reflexivity.
  - reflexivity.
  - discriminate.
  - split; [exact Hq | exact He].
Defined.

(** C5, as stated, fails: attempt 1 fails in execution, with an error text
    that quotes the statement, and attempt 2 fails in generation because the
    backend cannot be reached.  The exception names the number of attempts
    and the last error; the one query that was tried is not in it. *)
Lemma exhausted_message_lacks_query_counterexample :
  exists w' l msg,
    Script.run SCHEMA QUESTION 2
               (mkWorld [inr "SELECT a FROM orders"; inl "[Errno 111] Connection refused"]
                        [inl ("(pyodbc.ProgrammingError) ('42S22', 'Invalid column name a')"
                              ++ NL ++ "[SQL: SELECT a FROM orders]")])
    = (inl (Exception msg), w', l)
    /\ msg = "Failed after 2 attempts. Last error: [Errno 111] Connection refused"
    /\ (forall text result,
          In (EvExecute text result) l -> text = "SELECT a FROM orders")
    /\ executor_calls l = 1
    /\ Str.contains "SELECT a FROM orders" msg = false.
Proof.
  do 3 eexists. split; [vm_compute; reflexivity|]. split; [reflexivity|].
  split; [|split; vm_compute; reflexivity].
  intros text result H. cbn in H.
  repeat (destruct H as [H | H]; [try discriminate H; injection H as <- _; reflexivity|]).
  destruct H.
Qed.

Lemma exhausted_retries_message_witness :
  exists err,
    "Failed after 2 attempts. Last error: [Errno 111] Connection refused"
    = "Failed after " ++ Str.of_Z 2 ++ " attempts. Last error: " ++ err.
Proof.
  destruct (exhausted_retries_message _ Script.chat Script.read_sql SCHEMA QUESTION 2
              (mkWorld [inr "SELECT a FROM orders"; inl "[Errno 111] Connection refused"]
                       [inl "Invalid column name 'a'"])
              "Failed after 2 attempts. Last error: [Errno 111] Connection refused"
              (mkWorld [] [])
              [EvAttempt 1; EvGenerate None None INITIAL (inr "SELECT a FROM orders");
               EvExecute "SELECT a FROM orders" (inl "SQL Error: Invalid column name 'a'");
               EvAttempt 2;
               EvGenerate (Some "SELECT a FROM orders")
                          (Some "SQL Error: Invalid column name 'a'")
                          (_build_healing_prompt SCHEMA QUESTION "SELECT a FROM orders"
                                                 "SQL Error: Invalid column name 'a'")
                          (inl "[Errno 111] Connection refused")])
    as (err & _ & _ & E & _).
  - vm_compute. reflexivity.
  - exists err. exact E.
Defined.

(** C6, as stated, fails: a first-try success returns a tuple of two items,
    and no attempt count. *)
Lemma success_value_counterexample :
  exists r w' l,
    Script.run SCHEMA QUESTION 3 (mkWorld [inr "SELECT 1"] [inr one_row]) = (r, w', l)
    /\ r = inr (PyTuple [PyDF one_row; PyStr "SELECT 1"])
    /\ forall df text count, r <> inr (PyTuple [PyDF df; PyStr text; PyInt count]).
Proof.
  do 3 eexists. split; [vm_compute; reflexivity|]. split; [reflexivity|].
  intros df text count. discriminate.
Qed.

Lemma success_returns_pair_witness :
  (1 <= 3)%Z
  /\ exists l,
      Script.run SCHEMA QUESTION 3 (mkWorld [inr "SELECT 1"] [inr one_row])
      = (inr (PyTuple [PyDF one_row; PyStr "SELECT 1"]), mkWorld [] [], l)
      /\ attempts_made l = 1.
Proof.
  split; [lia|].
  destruct (success_returns_pair _ Script.chat Script.read_sql SCHEMA QUESTION 3
              (mkWorld [inr "SELECT 1"] [inr one_row])) as [_ H]; [lia|].
  destruct (H "SELECT 1" (mkWorld [] [inr one_row]) one_row (mkWorld [] []))
    as (l & R & _ & Ha & _); try reflexivity.
  exists l. split; [exact R | exact Ha].
Defined.

(** C7, as stated, fails: after the generation failure of attempt 1 the
    request of attempt 2 is the same initial prompt, with no trace of the
    failure in it. *)
Lemma generation_failure_prompt_counterexample :
  exists r w' prompt,
    Script.run SCHEMA QUESTION 2
               (mkWorld [inl "connection refused"; inr "SELECT 1"] [inr one_row])
    = (r, w',
       [EvAttempt 1; EvGenerate None None INITIAL (inl "connection refused");
        EvAttempt 2; EvGenerate None (Some "connection refused") prompt (inr "SELECT 1");
        EvExecute "SELECT 1" (inr one_row)])
    /\ prompt = INITIAL
    /\ Str.contains "connection refused" prompt = false.
Proof.
  do 3 eexists. split; [vm_compute; reflexivity|]. split; vm_compute; reflexivity.
Qed.

Lemma generation_failure_is_retried_witness :
  (1 < 2)%Z
  /\ exists r w' result rest,
      Script.run SCHEMA QUESTION 2
                 (mkWorld [inl "connection refused"; inr "SELECT 1"] [inr one_row])
      = (r, w',
         EvAttempt 1 :: EvGenerate None None INITIAL (inl "connection refused")
         :: EvAttempt 2 :: EvGenerate None (Some "connection refused") INITIAL result
         :: rest).
Proof.
  split; [lia|].
  apply (generation_failure_is_retried _ Script.chat Script.read_sql SCHEMA QUESTION 2
           (mkWorld [inl "connection refused"; inr "SELECT 1"] [inr one_row])
           "connection refused" (mkWorld [inr "SELECT 1"] [inr one_row])).
  - lia.
  - reflexivity.
Defined.



End Runs.

(* ------------------------------------------------------------------------- *)
(** * More about the retry loop *)
(* ------------------------------------------------------------------------- *)

Section MoreRetryFacts.

Variable World : Type.
Variable chat : string -> string -> World -> (string + string) * World.
Variable read_sql : string -> World -> (string + DataFrame) * World.
Variable schema_context : option string.

Abbreviation loop := (for_attempts chat read_sql schema_context).
Abbreviation prompt_of q m :=
  (build_prompt schema_context q (previous_sql (locals m)) (error_message (locals m))).
Abbreviation generated q m :=
  (EvGenerate (previous_sql (locals m)) (error_message (locals m)) (prompt_of q m)).

Ltac by_loop_induction :=
  match goal with
  | |- forall attempts m r m' l,
        for_attempts _ _ _ ?q ?N attempts m = (r, m', l) -> @?P attempts m r m' l =>
      apply (for_attempts_ind _ chat read_sql schema_context q N P)
  end.

Lemma no_attempts_run (q : string) (N : Z) (w : World) :
  (N <= 0)%Z -> run chat read_sql schema_context q N w = (inr PyNone, w, []).
Proof.
  intros H. rewrite (run_loop _ chat read_sql schema_context).
  rewrite range_nonpositive by assumption. reflexivity.
Qed.

Lemma last_generated_app (h l : list event) :
  last_generated (h ++ l)
  = match last_generated l with
    | Some text => Some text
    | None => last_generated h
    end.
Proof.
  unfold last_generated. rewrite fold_left_app.
  generalize (fold_left
                (fun found e => match e with
                                | EvGenerate _ _ _ (inr text) => Some text
                                | _ => found
                                end) h None).
  induction l as [|e l IH]; intros o; [reflexivity|].
  cbn [fold_left]. rewrite IH. rewrite (IH (match e with
                                            | EvGenerate _ _ _ (inr text) => Some text
                                            | _ => None
                                            end)).
  destruct (fold_left _ l None); [reflexivity|].
  destruct e as [| ? ? ? [|] |]; reflexivity.
Qed.

Lemma last_failure_app (h l : list event) :
  last_failure (h ++ l)
  = match last_failure l with
    | Some msg => Some msg
    | None => last_failure h
    end.
Proof.
  unfold last_failure. rewrite fold_left_app.
  generalize (fold_left
                (fun found e => match failure_text e with
                                | Some msg => Some msg
                                | None => found
                                end) h None).
  induction l as [|e l IH]; intros o; [reflexivity|].
  cbn [fold_left]. rewrite IH. rewrite (IH (match failure_text e with
                                            | Some msg => Some msg
                                            | None => None
                                            end)).
  destruct (fold_left _ l None); [reflexivity|].
  destruct (failure_text e); reflexivity.
Qed.

Lemma app_cons2 (h pre : list event) (a b : event) :
  (h ++ a :: b :: pre = (h ++ [a; b]) ++ pre)%list.
Proof. rewrite <- app_assoc. reflexivity. Qed.

Lemma app_cons3 (h pre : list event) (a b c : event) :
  (h ++ a :: b :: c :: pre = (h ++ [a; b; c]) ++ pre)%list.
Proof. rewrite <- app_assoc. reflexivity. Qed.

Lemma loop_requests (q : string) (N : Z) attempts m r m' l :
  loop q N attempts m = (r, m', l) ->
  forall h, in_step h m ->
  forall pre p e prompt res post,
    l = (pre ++ EvGenerate p e prompt res :: post)%list ->
    p = last_generated (h ++ pre)
    /\ e = last_failure (h ++ pre)
    /\ prompt = build_prompt schema_context q p e.
Proof.
  revert attempts m r m' l. by_loop_induction.
  - intros m h _ pre * H. destruct pre; discriminate.
  - intros a rest m e w1 _ _ h (Hp & Hs & He) pre * H.
    destruct pre as [|x [|y [|z pre]]]; try discriminate.
    inversion H; subst; clear H.
    rewrite last_generated_app, last_failure_app. cbn. rewrite Hp, He. auto.
  - intros a rest m e w1 r m' l _ _ _ IH h (Hp & Hs & He) pre * H.
    destruct pre as [|x [|y pre]]; try discriminate.
    + inversion H; subst; clear H.
      rewrite last_generated_app, last_failure_app. cbn. rewrite Hp, He. auto.
    + injection H as <- <- H.
      rewrite app_cons2. eapply IH; [|eassumption]. unfold in_step.
      cbn [locals previous_sql sql error_message].
      rewrite last_generated_app, last_failure_app. cbn. auto.
  - intros a rest m content w1 kw _ _ _ h (Hp & Hs & He) pre * H.
    destruct pre as [|x [|y [|z pre]]]; try discriminate.
    inversion H; subst; clear H.
    rewrite last_generated_app, last_failure_app. cbn. rewrite Hp, He. auto.
  - intros a rest m content w1 df w2 _ _ _ h (Hp & Hs & He) pre * H.
    destruct pre as [|x [|y [|z [|u pre]]]]; try discriminate.
    inversion H; subst; clear H.
    rewrite last_generated_app, last_failure_app. cbn. rewrite Hp, He. auto.
  - intros a rest m content w1 err w2 _ _ _ _ h (Hp & Hs & He) pre * H.
    destruct pre as [|x [|y [|z [|u pre]]]]; try discriminate.
    inversion H; subst; clear H.
    rewrite last_generated_app, last_failure_app. cbn. rewrite Hp, He. auto.
  - intros a rest m content w1 err w2 r m' l _ _ _ _ _ IH h (Hp & Hs & He) pre * H.
    destruct pre as [|x [|y [|z pre]]]; try discriminate.
    + inversion H; subst; clear H.
      rewrite last_generated_app, last_failure_app. cbn. rewrite Hp, He. auto.
    + injection H as <- <- <- H.
      rewrite app_cons3. eapply IH; [|eassumption]. unfold in_step.
      cbn [locals previous_sql sql error_message].
      rewrite last_generated_app, last_failure_app. cbn. auto.
Qed.

(** The request of every attempt is built from the question, the latest
    query text generated so far in the run (whichever attempt produced it)
    and the message of the latest failure: each call of [generate_safe_sql]
    receives these two as [previous_sql] and [error_message], both absent on
    attempt 1, and sends the prompt chosen from them. *)
Theorem request_follows_latest_failure (q : string) (N : Z) (w : World) r w' l
        pre p e prompt res post :
  run chat read_sql schema_context q N w = (r, w', l) ->
  l = (pre ++ EvGenerate p e prompt res :: post)%list ->
  p = last_generated pre
  /\ e = last_failure pre
  /\ prompt = build_prompt schema_context q p e.
Proof.
  intros R El.
  apply (run_inv _ chat read_sql schema_context) in R as (m' & L & _).
  apply (loop_requests _ _ _ _ _ _ _ L [] (conj eq_refl (conj eq_refl eq_refl)) _ _ _ _ _ _ El).
Qed.

Ltac split_events H pre :=
  destruct pre as [|? [|? [|? [|? pre]]]]; try discriminate H;
  try (inversion H; subst; clear H).

Lemma loop_generate_then_execute (q : string) (N : Z) attempts m r m' l :
  loop q N attempts m = (r, m', l) ->
  (forall pre p e prompt text post,
      l = (pre ++ EvGenerate p e prompt (inr text) :: post)%list ->
      (validate_sql_safety text = inr true ->
       exists result rest, post = EvExecute text result :: rest)
      /\ (validate_sql_safety text <> inr true ->
          post = [] /\ exists msg, r = inl (SafetyViolationError msg)))
  /\ (forall pre text result post,
        l = (pre ++ EvExecute text result :: post)%list ->
        exists pre' p e prompt,
          pre = (pre' ++ [EvGenerate p e prompt (inr text)])%list).
Proof.
  revert attempts m r m' l. by_loop_induction.
  - intros m. split; intros pre * H; destruct pre; discriminate.
  - intros a rest m e w1 _ _. split; intros pre * H; split_events H pre.
  - intros a rest m e w1 r m' l _ _ _ [IH1 IH2]. split; intros pre * H.
    + destruct pre as [|x [|y pre]]; try discriminate.
      injection H as _ _ H. eapply IH1. eassumption.
    + destruct pre as [|x [|y pre]]; try discriminate.
      injection H as <- <- H. destruct (IH2 _ _ _ _ H) as (pre' & p & e' & prompt & ->).
      exists (EvAttempt a :: generated q m (inl e) :: pre'), p, e', prompt. reflexivity.
  - intros a rest m content w1 kw _ _ V. split; intros pre * H; split_events H pre.
    split; [congruence | eauto].
  - intros a rest m content w1 df w2 _ V _. split; intros pre * H; split_events H pre.
    + split; [eauto | congruence].
    + exists [EvAttempt a], (previous_sql (locals m)), (error_message (locals m)),
        (prompt_of q m). reflexivity.
  - intros a rest m content w1 err w2 _ V _ _. split; intros pre * H; split_events H pre.
    + split; [eauto | congruence].
    + exists [EvAttempt a], (previous_sql (locals m)), (error_message (locals m)),
        (prompt_of q m). reflexivity.
  - intros a rest m content w1 err w2 r m' l _ V _ _ _ [IH1 IH2].
    split; intros pre * H.
    + destruct pre as [|x [|y [|z pre]]]; try discriminate.
      * inversion H; subst; clear H. split; [eauto | congruence].
      * injection H as _ _ _ H. eapply IH1. eassumption.
    + destruct pre as [|x [|y [|z pre]]]; try discriminate.
      * inversion H; subst; clear H.
        exists [EvAttempt a], (previous_sql (locals m)), (error_message (locals m)),
          (prompt_of q m). reflexivity.
      * injection H as <- <- <- H.
        destruct (IH2 _ _ _ _ H) as (pre' & p & e' & prompt & ->).
        eexists (EvAttempt a :: _ :: _ :: pre'), p, e', prompt. reflexivity.
Qed.

(** The executor receives exactly what was generated: every generated text
    for which [validate_sql_safety] returns [True] is handed to
    [execute_query] at once and unchanged, a text for which it raises ends
    the run on the spot with [SafetyViolationError], and every call of the
    executor comes right after the generation of its text. *)
Theorem executed_as_generated (q : string) (N : Z) (w : World) r w' l :
  run chat read_sql schema_context q N w = (r, w', l) ->
  (forall pre p e prompt text post,
      l = (pre ++ EvGenerate p e prompt (inr text) :: post)%list ->
      (validate_sql_safety text = inr true ->
       exists result rest, post = EvExecute text result :: rest)
      /\ (validate_sql_safety text <> inr true ->
          post = [] /\ exists msg, r = inl (SafetyViolationError msg)))
  /\ (forall pre text result post,
        l = (pre ++ EvExecute text result :: post)%list ->
        exists pre' p e prompt,
          pre = (pre' ++ [EvGenerate p e prompt (inr text)])%list).
Proof.
  intros R. apply (run_inv _ chat read_sql schema_context) in R as (m' & L & _).
  exact (loop_generate_then_execute _ _ _ _ _ _ _ L).
Qed.

(** A successful run hands back a text for which [validate_sql_safety]
    returned [True], the one generated in the last attempt, together with
    the rows the store returned for that very text in the last call of the
    run. *)
Theorem returned_query_is_safe (q : string) (N : Z) (w : World) df text w' l :
  run chat read_sql schema_context q N w
  = (inr (PyTuple [PyDF df; PyStr text]), w', l) ->
  validate_sql_safety text = inr true
  /\ exists pre p e prompt,
      l = (pre ++ [EvGenerate p e prompt (inr text); EvExecute text (inr df)])%list.
Proof.
  intros R. apply (run_inv _ chat read_sql schema_context) in R as (m' & L & _).
  pose proof (loop_outcome _ chat read_sql schema_context _ _ _ _ _ _ _ L) as H.
  cbv beta iota in H.
  destruct H as [[H _] | (df' & s & pre & p & e & prompt & E & ->)]; [discriminate|].
  injection E as <- <-. split.
  - eapply (loop_executed_validated _ chat read_sql schema_context _ _ _ _ _ _ _ L).
    apply in_or_app. right. right. left. reflexivity.
  - exists pre, p, e, prompt. reflexivity.
Qed.

Lemma range_shift (lo : Z) (k n : nat) :
  map (fun i => (lo + Z.of_nat i)%Z) (seq k n)
  = map (fun i => (lo + Z.of_nat k + Z.of_nat i)%Z) (seq 0 n).
Proof.
  revert lo k. induction n as [|n IH]; intros lo k; [reflexivity|].
  cbn [seq map]. f_equal; [lia|].
  rewrite (IH lo (S k)), (IH (lo + Z.of_nat k)%Z 1%nat). apply map_ext. intros i. lia.
Qed.

Lemma range_app (lo mid hi : Z) :
  (lo <= mid <= hi)%Z -> range lo hi = (range lo mid ++ range mid hi)%list.
Proof.
  intros H. unfold range.
  replace (Z.to_nat (hi - lo)) with (Z.to_nat (mid - lo) + Z.to_nat (hi - mid)) by lia.
  rewrite seq_app, map_app. f_equal. cbn [Nat.add].
  rewrite range_shift. apply map_ext. intros i. lia.
Qed.

Lemma loop_budget (q : string) (N N' : Z) :
  (N <= N')%Z ->
  forall attempts m r m' l,
    loop q N attempts m = (r, m', l) ->
    (forall a, In a attempts -> (a <= N)%Z) ->
    (exists msg, r = inl (SafetyViolationError msg))
    \/ (exists df text, r = inr (PyTuple [PyDF df; PyStr text])) ->
    forall more, loop q N' (attempts ++ more) m = (r, m', l).
Proof.
  intros HN. by_loop_induction.
  - intros m _ [[msg H] | (df & s & H)]; discriminate.
  - intros a rest m e w1 _ _ _ [[msg H] | (df & s & H)]; discriminate.
  - intros a rest m e w1 r m' l C Ha _ IH Hin Hr more.
    cbn [app]. rewrite for_attempts_cons. cbv zeta. rewrite C.
    assert (a <= N)%Z by (apply Hin; left; reflexivity).
    destruct (Z.eqb_spec a N'); [lia|].
    rewrite IH; auto. intros; apply Hin; right; assumption.
  - intros a rest m content w1 kw C _ V _ _ more.
    cbn [app]. rewrite for_attempts_cons. cbv zeta. rewrite C, V. reflexivity.
  - intros a rest m content w1 df w2 C V R _ _ more.
    cbn [app]. rewrite for_attempts_cons. cbv zeta. rewrite C, V, R. reflexivity.
  - intros a rest m content w1 err w2 _ _ _ _ _ [[msg H] | (df & s & H)]; discriminate.
  - intros a rest m content w1 err w2 r m' l C V R Ha _ IH Hin Hr more.
    cbn [app]. rewrite for_attempts_cons. cbv zeta. rewrite C, V, R.
    assert (a <= N)%Z by (apply Hin; left; reflexivity).
    destruct (Z.eqb_spec a N'); [lia|].
    rewrite IH; auto. intros; apply Hin; right; assumption.
Qed.

(** A larger budget changes nothing for a run that came to a result: when a
    run with [max_retries = N] succeeds or is stopped by the validator, the
    run with any [N' >= N] from the same state of the world has the same
    outcome, leaves the same world and makes the same calls. *)
Theorem larger_budget_same_run (q : string) (N N' : Z) (w : World) r w' l :
  (N <= N')%Z ->
  run chat read_sql schema_context q N w = (r, w', l) ->
  (exists msg, r = inl (SafetyViolationError msg))
  \/ (exists df text, r = inr (PyTuple [PyDF df; PyStr text])) ->
  run chat read_sql schema_context q N' w = (r, w', l).
Proof.
  intros HN R Hr.
  destruct (Z_le_gt_dec N 0) as [H0 | H0].
  - rewrite (no_attempts_run q N w H0) in R. injection R as <- <- <-.
    destruct Hr as [[msg H] | (df & s & H)]; discriminate.
  - apply (run_inv _ chat read_sql schema_context) in R as (m' & L & <-).
    rewrite (run_loop _ chat read_sql schema_context).
    rewrite (range_app 1 (N + 1) (N' + 1)) by lia.
    rewrite (loop_budget q N N' HN _ _ _ _ _ L); [reflexivity | | assumption].
    intros a Ha. apply range_In in Ha. lia.
Qed.

(** Every request sent to the backend carries the schema text and the user's
    question word for word, whichever of the two prompts it is; a healing
    request carries the previous query text and the error message as well. *)
Theorem every_request_carries_context (q : string) (N : Z) (w : World) r w' l
        p e prompt res :
  run chat read_sql schema_context q N w = (r, w', l) ->
  In (EvGenerate p e prompt res) l ->
  Str.contains (fmt schema_context) prompt = true
  /\ Str.contains q prompt = true
  /\ (prompt = _build_initial_prompt schema_context q
      \/ exists previous error,
          p = Some previous /\ e = Some error
          /\ prompt = _build_healing_prompt schema_context q previous error
          /\ Str.contains previous prompt = true
          /\ Str.contains error prompt = true).
Proof.
  intros R Hin. apply in_split in Hin as (pre & post & El).
  apply (run_inv _ chat read_sql schema_context) in R as (m' & L & _).
  destruct (loop_requests _ _ _ _ _ _ _ L [] (conj eq_refl (conj eq_refl eq_refl))
              _ _ _ _ _ _ El) as (_ & _ & ->).
  assert (Hi : Str.contains (fmt schema_context) (_build_initial_prompt schema_context q) = true
               /\ Str.contains q (_build_initial_prompt schema_context q) = true)
    by (unfold _build_initial_prompt;
        split; repeat first [apply contains_head | apply contains_skip]).
  assert (Hh : forall s err,
             Str.contains (fmt schema_context) (_build_healing_prompt schema_context q s err) = true
             /\ Str.contains q (_build_healing_prompt schema_context q s err) = true
             /\ Str.contains s (_build_healing_prompt schema_context q s err) = true
             /\ Str.contains err (_build_healing_prompt schema_context q s err) = true)
    by (intros s err; unfold _build_healing_prompt;
        repeat split; repeat first [apply contains_head | apply contains_skip]).
  unfold build_prompt.
  destruct p as [s|]; [|destruct Hi; auto].
  destruct e as [err|]; [|destruct Hi; auto].
  destruct (truthy (Some s) && truthy (Some err)); [|destruct Hi; auto].
  destruct (Hh s err) as (H1 & H2 & H3 & H4).
  split; [assumption|]. split; [assumption|]. right. exists s, err. auto 10.
Qed.

End MoreRetryFacts.

(* ------------------------------------------------------------------------- *)
(** * The validator, word by word *)
(* ------------------------------------------------------------------------- *)

Module WordFacts.

Import StrFacts.

Lemma flush_In (w word : string) : In w (flush word) -> w = word /\ word <> "".
Proof.
  destruct word; cbn; [intros [] | intros [<- | []]].
  split; [reflexivity | discriminate].
Qed.

Lemma all_word_upper (s : string) : all_word (Str.upper s) = all_word s.
Proof.
  induction s as [|c s IH]; [reflexivity|]. cbn.
  rewrite CharFacts.is_word_upper, IH. reflexivity.
Qed.

(** Reading on from inside a word, through the rest of the word, up to a
    character that is not of a word. *)
Lemma words_from_word (mid post word : string) :
  all_word mid = true ->
  Re.head_is_word post = false ->
  words_from word (mid ++ post) = (flush (word ++ mid) ++ words_from "" post)%list.
Proof.
  revert word. induction mid as [|c mid IH]; intros word Hmid Hpost.
  - rewrite app_empty_r. cbn [append].
    destruct post as [|d post]; cbn [words_from flush app].
    + rewrite app_nil_r. reflexivity.
    + cbn in Hpost. rewrite Hpost. reflexivity.
  - cbn in Hmid. apply andb_true_iff in Hmid as [Hc Hmid].
    cbn [append words_from]. rewrite Hc, IH by assumption.
    rewrite app_assoc. reflexivity.
Qed.

(** Reading through a stretch that ends outside a word starts afresh. *)
Lemma words_from_boundary (pre x word : string) :
  Re.last_is_word (match word with "" => false | _ => true end) pre = false ->
  words_from word (pre ++ x) = (words_from word pre ++ words_from "" x)%list.
Proof.
  revert word. induction pre as [|c pre IH]; intros word H.
  - cbn in H. destruct word; [reflexivity | discriminate].
  - cbn [append words_from]. cbn [Re.last_is_word] in H.
    destruct (Char.is_word c) eqn:E.
    + apply IH.
      assert (Hne : word ++ String c "" <> "") by (destruct word; discriminate).
      destruct (word ++ String c ""); [contradiction | assumption].
    + rewrite IH by assumption. rewrite <- List.app_assoc. reflexivity.
Qed.

Lemma last_is_word_any (b b' : bool) (s : string) :
  s <> "" -> Re.last_is_word b s = Re.last_is_word b' s.
Proof. destruct s; [contradiction | reflexivity]. Qed.

(** Where a word of the text stands. *)
Lemma words_from_In (s word w : string) :
  In w (words_from word s) ->
  (exists mid post,
      s = mid ++ post /\ w = word ++ mid /\ w <> "" /\ all_word mid = true
      /\ Re.head_is_word post = false)
  \/ (exists pre post,
        s = pre ++ w ++ post /\ pre <> "" /\ w <> "" /\ all_word w = true
        /\ Re.last_is_word false pre = false /\ Re.head_is_word post = false).
Proof.
  revert word. induction s as [|c s IH]; intros word H.
  - cbn in H. apply flush_In in H as [-> Hne]. left. exists "", "".
    rewrite !app_empty_r. repeat split; auto.
  - cbn [words_from] in H. destruct (Char.is_word c) eqn:E.
    + destruct (IH _ H) as [(mid & post & -> & -> & Hne & Hmid & Hpost)
                           | (pre & post & -> & Hpre & Hne & Hw & Hl & Hpost)].
      * left. exists (String c mid), post. rewrite app_assoc in *. cbn. rewrite E.
        repeat split; auto.
      * right. exists (String c pre), post. cbn [append Re.last_is_word].
        rewrite (last_is_word_any _ false) by assumption.
        repeat split; auto; discriminate.
    + apply in_app_or in H as [H | H].
      * apply flush_In in H as [-> Hne]. left. exists "", (String c s).
        rewrite !app_empty_r. cbn. repeat split; auto.
      * destruct (IH _ H) as [(mid & post & -> & -> & Hne & Hmid & Hpost)
                             | (pre & post & -> & Hpre & Hne & Hw & Hl & Hpost)].
        -- right. exists (String c ""), post. cbn. rewrite E.
           repeat split; auto; discriminate.
        -- right. exists (String c pre), post. cbn [append Re.last_is_word]. rewrite E.
           repeat split; auto; discriminate.
Qed.

Lemma keywords_all_word (keyword : string) :
  In keyword DESTRUCTIVE_KEYWORDS -> all_word keyword = true.
Proof.
  unfold DESTRUCTIVE_KEYWORDS. simpl.
  intros H; repeat (destruct H as [<- | H]; [reflexivity|]). contradiction.
Qed.

(** A keyword occurs as a whole word exactly when it is one of the words. *)
Lemma word_occurrence_iff (keyword text : string) :
  keyword_shape keyword -> all_word keyword = true ->
  word_occurrence keyword text
  <-> exists w, In w (words text) /\ Str.upper w = keyword.
Proof.
  intros (Hne & _ & _ & Hup) Hall. split.
  - intros (pre & mid & post & -> & Hmid & Hpre & Hpost). rewrite Hup in Hmid.
    exists mid. split; [|assumption]. unfold words.
    rewrite words_from_boundary by assumption.
    rewrite words_from_word; [| rewrite <- all_word_upper, Hmid; assumption | assumption].
    apply in_or_app. right. apply in_or_app. left. cbn [append].
    destruct mid; [cbn in Hmid; congruence | left; reflexivity].
  - intros (w & Hin & Hw). unfold words in Hin.
    apply words_from_In in Hin
        as [(mid & post & -> & -> & Hne' & Hmid & Hpost)
           | (pre & post & -> & Hpre & Hne' & Hall' & Hl & Hpost)].
    + exists "", mid, post. cbn [append] in *. rewrite Hup. auto.
    + exists pre, w, post. rewrite Hup. auto.
Qed.

End WordFacts.

(** The validator reads an ASCII text word by word: [validate_sql_safety]
    returns [True] exactly when none of the words of the text, its maximal
    runs of letters, digits and underscores, is a blocked keyword in some
    letter case.  So [updated_at] or [dropdown] pass, while a keyword in
    brackets, in quotes or in a comment is blocked like any other. *)
Theorem validator_reads_words (sql : string) :
  Str.isascii sql = true ->
  (validate_sql_safety sql = inr true
   <-> forall w, In w (words sql) -> ~ In (Str.upper w) DESTRUCTIVE_KEYWORDS).
Proof.
  intros _. rewrite ValidatorFacts.validate_ok_iff. unfold blocked. split.
  - intros H w Hin Hk. apply H. exists (Str.upper w). split; [assumption|].
    apply WordFacts.word_occurrence_iff;
      auto using ValidatorFacts.keywords_shape, WordFacts.keywords_all_word.
    exists w. auto.
  - intros H (kw & Hk & Hocc).
    apply WordFacts.word_occurrence_iff in Hocc
        as (w & Hin & <-);
      auto using ValidatorFacts.keywords_shape, WordFacts.keywords_all_word.
    exact (H w Hin Hk).
Qed.

(* ------------------------------------------------------------------------- *)
(** * More about response extraction *)
(* ------------------------------------------------------------------------- *)

Module ExtractFacts.

Import StrFacts ContainsFacts StripFacts.

(** The steps of [_extract_sql], without the matcher. *)
Lemma extract_steps (response_text : string) :
  _extract_sql response_text = extract_described response_text.
Proof.
  unfold _extract_sql, extract_described. rewrite FenceFacts.findall_first_eq.
  destruct (first_fenced_block (Str.strip response_text)) as [block|].
  - rewrite strip_idempotent. apply MarkerFacts.cut_separators.
  - rewrite (strip_idempotent response_text) at 1.
    rewrite MarkerFacts.cut_separators, strip_idempotent. reflexivity.
Qed.

Lemma lstrip_decomp (s : string) : exists ws, s = ws ++ Str.lstrip s.
Proof.
  induction s as [|c s [ws E]]; [exists ""; reflexivity|].
  cbn [Str.lstrip]. destruct (Char.is_space c).
  - exists (String c ws). cbn. f_equal. exact E.
  - exists "". reflexivity.
Qed.

Lemma contains_inside (x a s b : string) :
  Str.contains x s = true -> Str.contains x (a ++ s ++ b) = true.
Proof.
  intros H. apply contains_iff in H as (u & v & ->). apply contains_iff.
  exists (a ++ u), (v ++ b). rewrite !app_assoc. reflexivity.
Qed.

Lemma contains_rstrip (x s : string) :
  Str.contains x (Str.rstrip s) = true -> Str.contains x s = true.
Proof.
  intros H. destruct (rstrip_decomp s) as (ws & E & _). rewrite E.
  apply (contains_inside x "" _ ws). assumption.
Qed.

Lemma contains_lstrip (x s : string) :
  Str.contains x (Str.lstrip s) = true -> Str.contains x s = true.
Proof.
  intros H. destruct (lstrip_decomp s) as (ws & E). rewrite E.
  rewrite <- (app_empty_r (Str.lstrip s)). apply contains_inside. assumption.
Qed.

Lemma contains_strip (x s : string) :
  Str.contains x (Str.strip s) = true -> Str.contains x s = true.
Proof. intros H. apply contains_lstrip, contains_rstrip. exact H. Qed.

Lemma not_contains_strip (x s : string) :
  Str.contains x s = false -> Str.contains x (Str.strip s) = false.
Proof.
  intros H. destruct (Str.contains x (Str.strip s)) eqn:C; [|reflexivity].
  apply contains_strip in C. congruence.
Qed.

Lemma contains_before_markers (x : string) (markers : list string) (s : string) :
  Str.contains x (before_markers markers s) = true -> Str.contains x s = true.
Proof.
  intros H. destruct (MarkerFacts.before_markers_prefix markers s) as (rest & E).
  rewrite E. apply (contains_inside x "" _ rest). assumption.
Qed.

(** What is kept in front of the markers holds none of them. *)
Lemma before_markers_free (markers : list string) (sep s : string) :
  In sep markers -> sep <> "" ->
  Str.contains sep (before_markers markers s) = false.
Proof.
  intros Hin Hne.
  assert (Hempty : Str.contains sep "" = false) by (destruct sep; [contradiction | reflexivity]).
  induction s as [|c s IH]; cbn [before_markers].
  - destruct (existsb _ markers); exact Hempty.
  - destruct (existsb (fun marker => Str.startswith marker (String c s)) markers) eqn:Hhit;
      [exact Hempty|].
    cbn [Str.contains]. rewrite IH, orb_false_r.
    destruct (Str.startswith sep (String c (before_markers markers s))) eqn:F; [|reflexivity].
    destruct (MarkerFacts.before_markers_prefix markers s) as (rest & E).
    apply (MarkerFacts.startswith_prefix _ _ rest) in F. cbn [append] in F. rewrite <- E in F.
    assert (Hhit' : existsb (fun marker => Str.startswith marker (String c s)) markers = true)
      by (apply existsb_exists; exists sep; auto).
    congruence.
Qed.

Lemma before_markers_absent (markers : list string) (s : string) :
  (forall sep, In sep markers -> Str.contains sep s = false) ->
  before_markers markers s = s.
Proof.
  intros H. induction s as [|c s IH]; cbn [before_markers].
  - destruct (existsb _ markers); reflexivity.
  - destruct (existsb (fun marker => Str.startswith marker (String c s)) markers) eqn:Hhit.
    + apply existsb_exists in Hhit as (sep & Hin & F).
      specialize (H sep Hin). cbn [Str.contains] in H. rewrite F in H. discriminate.
    + rewrite IH; [reflexivity|]. intros sep Hin. specialize (H sep Hin).
      cbn [Str.contains] in H. apply orb_false_iff in H as [_ H]. exact H.
Qed.

Lemma separator_nonempty (sep : string) : In sep SEPARATORS -> sep <> "".
Proof.
  intros H. apply MarkerFacts.separators_shape in H.
  apply MarkerFacts.marker_nonempty in H as [H _]. exact H.
Qed.

Lemma after_first_none (sep s : string) :
  Str.contains sep s = false -> after_first sep s = None.
Proof.
  induction s as [|c s IH]; cbn [Str.contains after_first]; intros H;
    apply orb_false_iff in H as [H1 H2]; rewrite H1; auto.
Qed.

End ExtractFacts.

(** Whatever the backend answers, the extracted query has no white space at
    either end and holds none of the explanation markers. *)
Theorem extracted_is_trimmed_and_unmarked (response_text : string) :
  Str.strip (_extract_sql response_text) = _extract_sql response_text
  /\ forall separator,
      In separator SEPARATORS ->
      Str.contains separator (_extract_sql response_text) = false.
Proof.
  rewrite ExtractFacts.extract_steps. unfold extract_described. split.
  - apply StripFacts.strip_idempotent.
  - intros sep Hin. apply ExtractFacts.not_contains_strip.
    apply ExtractFacts.before_markers_free; [assumption|].
    apply ExtractFacts.separator_nonempty. assumption.
Qed.

(** An ASCII reply without a code fence and without an explanation marker is
    taken as it is, trimmed. *)
Theorem plain_reply_is_kept (response_text : string) :
  Str.isascii response_text = true ->
  Str.contains FENCE response_text = false ->
  (forall separator,
      In separator SEPARATORS -> Str.contains separator response_text = false) ->
  _extract_sql response_text = Str.strip response_text.
Proof.
  intros _ Hf Hm. rewrite ExtractFacts.extract_steps. unfold extract_described.
  unfold first_fenced_block.
  rewrite (ExtractFacts.after_first_none FENCE (Str.strip response_text))
    by (apply ExtractFacts.not_contains_strip; assumption).
  rewrite StripFacts.strip_idempotent.
  rewrite ExtractFacts.before_markers_absent.
  - apply StripFacts.strip_idempotent.
  - intros sep Hin. apply ExtractFacts.not_contains_strip. auto.
Qed.

Module BlockFacts.

Import StrFacts ContainsFacts StripFacts.

Lemma after_first_some (sep s rest : string) :
  after_first sep s = Some rest -> exists before, s = before ++ sep ++ rest.
Proof.
  revert rest. induction s as [|c s IH]; intros rest; cbn [after_first].
  - destruct sep as [|a sep]; cbn; [|discriminate].
    intros [= <-]. exists "". reflexivity.
  - destruct (Str.startswith sep (String c s)) eqn:F.
    + intros [= <-]. apply startswith_inv in F as (post & E).
      exists "". rewrite E. rewrite drop_app. reflexivity.
    + intros H. destruct (IH _ H) as (before & ->). exists (String c before). reflexivity.
Qed.

Lemma drop_app_le (n : nat) (x y : string) :
  n <= String.length x -> Str.drop n (x ++ y) = Str.drop n x ++ y.
Proof.
  revert x. induction n as [|n IH]; intros x H; [reflexivity|].
  destruct x as [|c x]; cbn in H; [lia|]. cbn. apply IH. lia.
Qed.

Lemma length_app_ge (x y : string) : String.length y <= String.length (x ++ y).
Proof. induction x; cbn; lia. Qed.

Lemma contains_fence_skip_tag_intro (s : string) :
  Str.contains FENCE s = true -> Str.contains FENCE (skip_tag s) = true.
Proof.
  unfold skip_tag. destruct s as [|a [|b [|c r]]]; auto.
  destruct (Char.eqb_nocase "s" a) eqn:E1; cbn [andb]; auto.
  destruct (Char.eqb_nocase "q" b) eqn:E2; cbn [andb]; auto.
  destruct (Char.eqb_nocase "l" c) eqn:E3; cbn [andb]; auto.
  intros H. rewrite !FenceFacts.contains_fence_cons in H; [assumption | | |];
    eapply FenceFacts.tag_not_backtick; try eassumption; simpl; auto.
Qed.

(** With two fences one after the other there is a fenced block. *)
Lemma two_fences_block (u v w : string) :
  first_fenced_block (u ++ FENCE ++ v ++ FENCE ++ w) <> None.
Proof.
  unfold first_fenced_block.
  assert (H : exists rest,
             after_first FENCE (u ++ FENCE ++ v ++ FENCE ++ w) = Some rest
             /\ Str.contains FENCE rest = true).
  { induction u as [|c u (rest & E & C)].
    - exists (v ++ FENCE ++ w). split; [reflexivity | apply contains_app].
    - cbn [append after_first].
      destruct (Str.startswith FENCE (String c (u ++ FENCE ++ v ++ FENCE ++ w))).
      + eexists. split; [reflexivity|].
        change (String c (u ++ FENCE ++ v ++ FENCE ++ w))
          with (String c u ++ FENCE ++ v ++ FENCE ++ w).
        rewrite <- (app_assoc (String c u) FENCE).
        rewrite drop_app_le.
        * apply contains_skip, contains_app.
        * apply (length_app_ge (String c u) FENCE).
      + exists rest. auto. }
  destruct H as (rest & -> & C).
  intros B. apply FenceFacts.fence_body_none in B.
  apply contains_fence_skip_tag_intro in C. congruence.
Qed.

(** A fenced block is two fences one after the other. *)
Lemma block_two_fences (s block : string) :
  first_fenced_block s = Some block ->
  exists u v w, s = u ++ FENCE ++ v ++ FENCE ++ w.
Proof.
  unfold first_fenced_block. destruct (after_first FENCE s) as [rest|] eqn:A; [|discriminate].
  intros B. apply after_first_some in A as (u & ->).
  assert (C : Str.contains FENCE rest = true).
  { apply FenceFacts.contains_fence_skip_tag.
    destruct (Str.contains FENCE (skip_tag rest)) eqn:C; [reflexivity|].
    apply FenceFacts.fence_body_none in C. congruence. }
  apply contains_iff in C as (v & w & ->). exists u, v, w. reflexivity.
Qed.

(** A piece of a text without fenced block has none either. *)
Lemma no_block_inside (a s b : string) :
  first_fenced_block (a ++ s ++ b) = None -> first_fenced_block s = None.
Proof.
  intros H. destruct (first_fenced_block s) as [block|] eqn:B; [|reflexivity].
  exfalso. apply block_two_fences in B as (u & v & w & ->).
  apply (two_fences_block (a ++ u) v (w ++ b)). rewrite <- H.
  f_equal. rewrite !app_assoc. reflexivity.
Qed.

(** The content of a fenced block holds no fence. *)
Lemma block_has_no_fence (s block : string) :
  first_fenced_block s = Some block -> Str.contains FENCE block = false.
Proof.
  unfold first_fenced_block, fence_body.
  destruct (after_first FENCE s) as [rest|]; [|discriminate].
  destruct (Str.contains FENCE (Str.lstrip (skip_tag rest))); [|discriminate].
  intros [= <-].
  destruct (Str.contains FENCE (Str.rstrip (Str.split_head FENCE (Str.lstrip (skip_tag rest)))))
    eqn:C; [|reflexivity].
  apply ExtractFacts.contains_rstrip in C.
  rewrite <- MarkerFacts.before_markers_single in C.
  rewrite ExtractFacts.before_markers_free in C; [discriminate | left; reflexivity | discriminate].
Qed.

(** What is extracted is a piece of the trimmed text it is taken from. *)
Lemma trimmed_prefix_inside (markers : list string) (s : string) :
  exists a b, s = a ++ Str.strip (before_markers markers s) ++ b.
Proof.
  destruct (MarkerFacts.before_markers_prefix markers s) as (rest & E).
  set (x := before_markers markers s) in *.
  destruct (ExtractFacts.lstrip_decomp x) as (ws & E1).
  destruct (rstrip_decomp (Str.lstrip x)) as (ws' & E2 & _).
  exists ws, (ws' ++ rest). unfold Str.strip.
  rewrite E at 1. rewrite E1 at 1. rewrite E2 at 1. rewrite !app_assoc. reflexivity.
Qed.

End BlockFacts.

(** Extraction is idempotent: extracting from an extracted query gives the
    same query again. *)
Theorem extract_twice (response_text : string) :
  _extract_sql (_extract_sql response_text) = _extract_sql response_text.
Proof.
  rewrite !ExtractFacts.extract_steps.
  set (r := extract_described response_text).
  assert (Hs : Str.strip r = r) by apply StripFacts.strip_idempotent.
  assert (Hm : forall sep, In sep SEPARATORS -> Str.contains sep r = false).
  { intros sep Hin. apply ExtractFacts.not_contains_strip.
    apply ExtractFacts.before_markers_free;
      [assumption | apply ExtractFacts.separator_nonempty; assumption]. }
  assert (Hb : first_fenced_block r = None).
  { subst r. unfold extract_described.
    destruct (first_fenced_block (Str.strip response_text)) as [block|] eqn:B.
    - unfold first_fenced_block. rewrite ExtractFacts.after_first_none; [reflexivity|].
      apply ExtractFacts.not_contains_strip.
      destruct (Str.contains FENCE (before_markers SEPARATORS (Str.strip block))) eqn:C;
        [|reflexivity].
      apply ExtractFacts.contains_before_markers, ExtractFacts.contains_strip in C.
      rewrite (BlockFacts.block_has_no_fence _ _ B) in C. discriminate.
    - rewrite StripFacts.strip_idempotent.
      destruct (BlockFacts.trimmed_prefix_inside SEPARATORS (Str.strip response_text))
        as (a & b & E).
      apply (BlockFacts.no_block_inside a _ b). rewrite <- E. exact B. }
  unfold extract_described at 1. rewrite Hs, Hb, Hs.
  rewrite ExtractFacts.before_markers_absent by exact Hm. exact Hs.
Qed.

Module RoundTripFacts.

Import StrFacts ContainsFacts StripFacts.

Lemma lstrip_app (a x : string) :
  x <> "" -> starts_with_space x = false -> Str.lstrip (a ++ x) = Str.lstrip a ++ x.
Proof.
  intros Hne Hx. induction a as [|c a IH]; cbn [append Str.lstrip].
  - apply lstrip_noop. assumption.
  - destruct (Char.is_space c); [exact IH | reflexivity].
Qed.

Lemma rstrip_app_keep (a b : string) :
  Str.rstrip b <> "" -> Str.rstrip (a ++ b) = a ++ Str.rstrip b.
Proof.
  intros Hb. induction a as [|c a IH]; [reflexivity|].
  cbn [append Str.rstrip]. rewrite IH.
  destruct (a ++ Str.rstrip b) eqn:E; [|reflexivity].
  destruct a; [cbn in E; contradiction | discriminate].
Qed.

Lemma rstrip_nonspace (c : ascii) (s : string) :
  Char.is_space c = false -> Str.rstrip (String c s) = String c (Str.rstrip s).
Proof. intros H. cbn. rewrite H. destruct (Str.rstrip s); reflexivity. Qed.

Lemma rstrip_fence (post : string) : Str.rstrip (FENCE ++ post) = FENCE ++ Str.rstrip post.
Proof. unfold FENCE. cbn [append]. rewrite !rstrip_nonspace by reflexivity. reflexivity. Qed.

Lemma rstrip_app_spaces (a ws : string) :
  Str.rstrip ws = "" -> Str.rstrip (a ++ ws) = Str.rstrip a.
Proof.
  intros W. induction a as [|c a IH]; [exact W|].
  cbn [append]. apply rstrip_cons_congr. exact IH.
Qed.

(** Three characters of a text decide whether it starts with a fence. *)
Lemma startswith_fence_app (a b : string) :
  Str.startswith FENCE (a ++ "``" ++ b) = Str.startswith FENCE (a ++ "``")
  \/ a = "".
Proof.
  destruct a as [|x [|y [|z a]]]; [right; reflexivity | left .. ]; unfold FENCE; cbn;
    repeat match goal with
           | |- context [Ascii.eqb ?u ?v] => destruct (Ascii.eqb u v); cbn
           end; reflexivity.
Qed.

(** When no fence starts within [a], the first fence of [a ++ FENCE ++ b] is
    the one written out. *)
Lemma first_fence_at (a b : string) :
  Str.contains FENCE (a ++ "``") = false ->
  Str.split_head FENCE (a ++ FENCE ++ b) = a
  /\ after_first FENCE (a ++ FENCE ++ b) = Some b.
Proof.
  induction a as [|c a IH]; intros H.
  - cbn [append]. split.
    + destruct b; reflexivity.
    + destruct b; reflexivity.
  - cbn [append Str.contains] in H. apply orb_false_iff in H as [H1 H2].
    destruct (IH H2) as [IH1 IH2].
    assert (F : Str.startswith FENCE (String c (a ++ FENCE ++ b)) = false).
    { destruct (startswith_fence_app (String c a) ("`" ++ b)) as [E | E]; [|discriminate].
      cbn [append] in E. unfold FENCE at 2. cbn [append]. rewrite E. exact H1. }
    cbn [append Str.split_head after_first]. rewrite F, IH1, IH2. auto.
Qed.

Lemma not_contains_suffix (x a s : string) :
  Str.contains x (a ++ s) = false -> Str.contains x s = false.
Proof.
  intros H. destruct (Str.contains x s) eqn:C; [|reflexivity].
  apply (contains_skip x a) in C. congruence.
Qed.

(** A fence does not reach across a character that is no backtick. *)
Lemma contains_fence_break (a b : string) (c : ascii) :
  Ascii.eqb "`" c = false ->
  Str.contains FENCE (a ++ String c b) = Str.contains FENCE a || Str.contains FENCE b.
Proof.
  intros Hc. induction a as [|x a IH].
  - cbn [append]. rewrite FenceFacts.contains_fence_cons by assumption.
    destruct (Str.contains FENCE b); reflexivity.
  - cbn [append Str.contains]. rewrite IH, orb_assoc. f_equal.
    destruct a as [|y [|z a]]; unfold FENCE; cbn [append Str.startswith];
      rewrite ?Hc, ?andb_false_r; try reflexivity.
Qed.

Lemma rstrip_ends_fence (a post : string) :
  Str.rstrip (a ++ FENCE ++ post) = a ++ FENCE ++ Str.rstrip post.
Proof.
  rewrite rstrip_app_keep; rewrite rstrip_fence; [reflexivity | discriminate].
Qed.

Lemma trimmed_facts (q : string) :
  Str.strip q = q -> starts_with_space q = false /\ Str.rstrip q = q.
Proof.
  intros H. split.
  - rewrite <- H. apply strip_head.
  - rewrite <- H. apply rstrip_strip.
Qed.

Lemma strip_app_newline (q : string) : Str.strip q = q -> Str.strip (q ++ NL) = q.
Proof.
  intros H. destruct (trimmed_facts q H) as [Hh Hr]. unfold Str.strip.
  destruct q as [|c q]; [reflexivity|].
  rewrite lstrip_noop by exact Hh.
  rewrite rstrip_app_spaces by reflexivity. exact Hr.
Qed.

Lemma skip_tag_tagged (tag rest : string) :
  tag = "" \/ Str.upper tag = "SQL" -> skip_tag (tag ++ NL ++ rest) = NL ++ rest.
Proof.
  intros [-> | H].
  - cbn [append NL]. unfold skip_tag. destruct rest as [|a [|b rest]]; reflexivity.
  - destruct tag as [|a [|b [|c [|d tag]]]]; try discriminate.
    cbn in H. injection H as Ha Hb Hc.
    cbn [append]. unfold skip_tag, Char.eqb_nocase. rewrite Ha, Hb, Hc. reflexivity.
Qed.

(** The body of a block written as: newline, query, newline, fence. *)
Lemma fence_body_query (q post : string) :
  Str.contains FENCE q = false -> Str.strip q = q ->
  fence_body (NL ++ q ++ NL ++ FENCE ++ post) = Some q.
Proof.
  intros Hf Hs. unfold fence_body.
  assert (E : Str.lstrip (NL ++ q ++ NL ++ FENCE ++ post)
              = Str.lstrip (q ++ NL) ++ FENCE ++ post).
  { change (Str.lstrip (NL ++ q ++ NL ++ FENCE ++ post))
      with (Str.lstrip (q ++ NL ++ FENCE ++ post)).
    rewrite <- (app_assoc q NL). apply lstrip_app; [discriminate | reflexivity]. }
  rewrite E, contains_skip by apply contains_head.
  assert (C : Str.contains FENCE (Str.lstrip (q ++ NL) ++ "``") = false).
  { destruct (ExtractFacts.lstrip_decomp (q ++ NL)) as (ws & Ews).
    apply (not_contains_suffix FENCE ws). rewrite <- app_assoc, <- Ews, app_assoc.
    cbn [NL append]. rewrite contains_fence_break by reflexivity.
    rewrite Hf. reflexivity. }
  destruct (first_fence_at _ post C) as [-> _].
  f_equal. apply (strip_app_newline q Hs).
Qed.

End RoundTripFacts.

(** A query sent back inside a fenced block comes out as it went in: when the
    reply is ASCII text made of some prose, a fence with no tag or the tag
    [sql] in any letter case, a newline, the query, a newline, the closing
    fence and whatever follows, the extracted text is the query, provided no
    fence starts in the prose and the query is trimmed and holds neither a
    fence nor an explanation marker. *)
Theorem fenced_reply_round_trip (pre tag query post : string) :
  Str.isascii (pre ++ FENCE ++ tag ++ NL ++ query ++ NL ++ FENCE ++ post) = true ->
  Str.contains FENCE (pre ++ "``") = false ->
  tag = "" \/ Str.upper tag = "SQL" ->
  Str.contains FENCE query = false ->
  Str.strip query = query ->
  (forall separator,
      In separator SEPARATORS -> Str.contains separator query = false) ->
  _extract_sql (pre ++ FENCE ++ tag ++ NL ++ query ++ NL ++ FENCE ++ post) = query.
Proof.
  intros _ Hpre Htag Hf Hs Hm.
  rewrite ExtractFacts.extract_steps. unfold extract_described.
  assert (E : Str.strip (pre ++ FENCE ++ tag ++ NL ++ query ++ NL ++ FENCE ++ post)
              = Str.lstrip pre ++ FENCE ++ tag ++ NL ++ query ++ NL ++ FENCE
                ++ Str.rstrip post).
  { unfold Str.strip.
    rewrite RoundTripFacts.lstrip_app by (try discriminate; reflexivity).
    replace (Str.lstrip pre ++ FENCE ++ tag ++ NL ++ query ++ NL ++ FENCE ++ post)
      with ((Str.lstrip pre ++ FENCE ++ tag ++ NL ++ query ++ NL) ++ FENCE ++ post)
      by (rewrite !StrFacts.app_assoc; reflexivity).
    rewrite RoundTripFacts.rstrip_ends_fence, !StrFacts.app_assoc. reflexivity. }
  rewrite E. clear E.
  assert (C : Str.contains FENCE (Str.lstrip pre ++ "``") = false).
  { destruct (ExtractFacts.lstrip_decomp pre) as (ws & Ews).
    apply (RoundTripFacts.not_contains_suffix FENCE ws).
    rewrite <- StrFacts.app_assoc, <- Ews. exact Hpre. }
  unfold first_fenced_block.
  destruct (RoundTripFacts.first_fence_at _ (tag ++ NL ++ query ++ NL ++ FENCE ++ Str.rstrip post) C)
    as [_ ->].
  rewrite RoundTripFacts.skip_tag_tagged by assumption.
  rewrite RoundTripFacts.fence_body_query by assumption.
  rewrite Hs, ExtractFacts.before_markers_absent by assumption. exact Hs.
Qed.

(* ------------------------------------------------------------------------- *)
(** * The performance monitor and [run_query] *)
(* ------------------------------------------------------------------------- *)

Module DequeFacts.

Lemma tl_skipn {A} (k : nat) (l : list A) : tl (skipn k l) = skipn (S k) l.
Proof.
  revert l. induction k as [|k IH]; intros [|x l]; try reflexivity.
  cbn [skipn]. rewrite IH. destruct l; reflexivity.
Qed.

Lemma lastn_length {A} (n : nat) (l : list A) :
  length (lastn n l) = Nat.min n (length l).
Proof. unfold lastn. rewrite length_skipn. lia. Qed.

Lemma lastn_all {A} (n : nat) (l : list A) : length l <= n -> lastn n l = l.
Proof.
  intros H. unfold lastn. replace (length l - n) with 0 by lia. reflexivity.
Qed.

(** Appending to a bounded deque keeps the last [n] of everything appended. *)
Lemma deque_append_lastn {A} (n : nat) (l : list A) (x : A) :
  deque_append n (lastn n l) x = lastn n (l ++ [x]).
Proof.
  unfold deque_append. rewrite lastn_length.
  destruct (Nat.ltb_spec (Nat.min n (length l)) n) as [H | H].
  - rewrite lastn_all by lia. rewrite lastn_all; [reflexivity|].
    rewrite length_app. cbn. lia.
  - destruct n as [|n].
    + unfold lastn. rewrite skipn_all2; [reflexivity|]. lia.
    + unfold lastn. rewrite tl_skipn, length_app. cbn [length].
      rewrite skipn_app.
      replace (length l + 1 - S n) with (S (length l - S n)) by lia.
      replace (S (length l - S n) - length l) with 0 by lia. reflexivity.
Qed.

End DequeFacts.

Section MonitorFacts.

Variable Float : Type.
Variable zero : Float.
Variable elapsed_ms : Float -> Float -> Float.
Variable World : Type.
Variable maxsize : Z.
Variable time_time : World -> Float * World.
Variable now_isoformat : World -> string * World.

Abbreviation calls_run := (monitor_calls zero elapsed_ms time_time now_isoformat).

Lemma monitor_calls_window (calls : list monitor_call) :
  forall (all : list (metric Float)) (mon : monitor Float) (w : World),
    query_metrics mon = lastn (max_history mon) all ->
    forall mon' w' appended,
      calls_run calls mon w = (mon', w', appended) ->
      max_history mon' = max_history mon
      /\ query_metrics mon' = lastn (max_history mon) (all ++ appended)
      /\ length appended
         <= length (filter is_start calls)
            + (match current_query_start mon with Some _ => 1 | None => 0 end).
Proof.
  induction calls as [|c calls IH]; intros all mon w Hq mon' w' appended H.
  - cbn in H. injection H as <- <- <-. rewrite app_nil_r. cbn. split; [|split]; auto. lia.
  - destruct c as [|q n ok]; cbn [monitor_calls] in H.
    + unfold start_query in H. destruct (time_time w) as [t w1].
      destruct (IH all (mkMonitor (max_history mon) (query_metrics mon) (Some t)) w1
                  Hq _ _ _ H) as (Hm & Hw & Hl).
      cbn in Hm, Hw, Hl |- *. split; [|split]; auto.
      destruct (current_query_start mon); lia.
    + unfold end_query in H. destruct (current_query_start mon) as [started|] eqn:S.
      * destruct (new_metric elapsed_ms time_time now_isoformat started q n ok w) as [m w1] eqn:M.
        destruct (calls_run calls _ w1) as [[mon2 w2] appended2] eqn:R.
        injection H as <- <- <-.
        cbn [fst]. 
        assert (Hq' : deque_append (max_history mon) (query_metrics mon) m
                      = lastn (max_history mon) (all ++ [m]))
          by (rewrite Hq; apply DequeFacts.deque_append_lastn).
        destruct (IH (all ++ [m])%list
                    (mkMonitor (max_history mon)
                               (deque_append (max_history mon) (query_metrics mon) m) None)
                    w1 Hq' _ _ _ R) as (Hm & Hw & Hl).
        cbn in Hm, Hw, Hl |- *. rewrite <- app_assoc in Hw.
        split; [|split]; auto. lia.
      * destruct (calls_run calls mon w) as [[mon2 w2] appended2] eqn:R.
        injection H as <- <- <-.
        destruct (IH all mon w Hq _ _ _ R) as (Hm & Hw & Hl). rewrite S in Hl.
        split; [|split]; auto.
Qed.

(** The monitor keeps a window: a [max_history] between [0] and
    [sys.maxsize] gives a monitor, and after any sequence of [start_query]
    and [end_query] calls on it [query_metrics] holds the last [max_history]
    entries appended, in order and never more, and there is at most one
    entry for each [start_query]. *)
Theorem monitor_keeps_last_entries (n : Z) (calls : list monitor_call) (w : World) :
  (0 <= n <= maxsize)%Z ->
  exists mon mon' w' appended,
    PerformanceMonitor maxsize n = inr mon
    /\ calls_run calls mon w = (mon', w', appended)
    /\ query_metrics mon' = lastn (Z.to_nat n) appended
    /\ (Z.of_nat (length (query_metrics mon')) <= n)%Z
    /\ length appended <= length (filter is_start calls).
Proof.
  intros Hn. unfold PerformanceMonitor.
  destruct (Z.ltb_spec maxsize n) as [H | _]; [lia|].
  destruct (Z.ltb_spec n (- maxsize - 1)) as [H | _]; [lia|]. cbn [orb].
  destruct (Z.ltb_spec n 0) as [H | _]; [lia|].
  destruct (calls_run calls (mkMonitor (Z.to_nat n) [] None) w)
    as [[mon' w'] appended] eqn:R.
  exists (mkMonitor (Z.to_nat n) [] None), mon', w', appended.
  destruct (monitor_calls_window calls [] (mkMonitor (Z.to_nat n) [] None) w eq_refl
              _ _ _ R) as (Hm & Hw & Hl).
  cbn [max_history query_metrics current_query_start app] in Hm, Hw, Hl.
  split; [reflexivity|]. split; [exact R|].
  split; [exact Hw|]. split; [|lia].
  rewrite Hw, DequeFacts.lastn_length. lia.
Qed.

Variable chat : string -> string -> World -> (string + string) * World.
Variable read_sql : string -> World -> (string + DataFrame) * World.
Variable schema_context : option string.
Variable present : string -> string -> DataFrame -> Float -> World
                   -> (string + unit) * World.

Abbreviation query_run :=
  (run_query zero elapsed_ms time_time now_isoformat chat read_sql schema_context present).
Abbreviation agent_run q w := (run chat read_sql schema_context q 3 (snd (time_time w))).

(** An [end_query] with no query started changes nothing. *)
Lemma end_query_idle (mon : monitor Float) (q : string) (n : Z) (ok : bool) (w : World) :
  current_query_start mon = None ->
  end_query zero elapsed_ms time_time now_isoformat mon q n ok w = (zero, mon, w).
Proof. intros H. unfold end_query. rewrite H. reflexivity. Qed.

Lemma end_query_started (mon : monitor Float) (started : Float) (q : string) (n : Z)
      (ok : bool) (w : World) :
  current_query_start mon = Some started ->
  end_query zero elapsed_ms time_time now_isoformat mon q n ok w
  = (execution_time_ms (fst (new_metric elapsed_ms time_time now_isoformat started q n ok w)),
     mkMonitor (max_history mon)
               (deque_append (max_history mon) (query_metrics mon)
                             (fst (new_metric elapsed_ms time_time now_isoformat
                                              started q n ok w)))
               None,
     snd (new_metric elapsed_ms time_time now_isoformat started q n ok w)).
Proof.
  intros H. unfold end_query. rewrite H.
  destruct (new_metric elapsed_ms time_time now_isoformat started q n ok w). reflexivity.
Qed.

Lemma new_metric_fields (started : Float) (q : string) (n : Z) (ok : bool) (w : World) :
  exists m w',
    new_metric elapsed_ms time_time now_isoformat started q n ok w = (m, w')
    /\ success m = ok /\ query m = take 200 q /\ rows_returned m = n
    /\ query_length m = String.length q.
Proof.
  unfold new_metric. destruct (time_time w) as [t w1].
  destruct (now_isoformat w1) as [stamp w2]. eexists _, _.
  split; [reflexivity|]. cbn. auto.
Qed.

(** [run_query] accounts for each question once.  Whatever the backend and
    the store answer and whether or not showing and saving the result fails
    afterwards, one entry is appended to the monitor and no query is left
    started; the entry says [success] with the number of rows exactly when
    [execute_with_retry] returned a result, and then, for an ASCII query, it
    holds the first 200 characters of the query and its full length;
    otherwise it fails with an empty query and no rows. *)
Theorem run_query_records_once (q : string) (mon : monitor Float) (w : World) :
  exists mon' w' m,
    query_run q mon w = (mon', w', snd (agent_run q w))
    /\ current_query_start mon' = None
    /\ max_history mon' = max_history mon
    /\ query_metrics mon' = deque_append (max_history mon) (query_metrics mon) m
    /\ match fst (fst (agent_run q w)) with
       | inr (PyTuple [PyDF df; PyStr sql]) =>
           success m = true /\ rows_returned m = len df
           /\ (Str.isascii sql = true ->
               query m = take 200 sql /\ query_length m = String.length sql)
       | _ =>
           success m = false /\ query m = "" /\ rows_returned m = 0%Z
           /\ query_length m = 0
       end.
Proof.
  unfold run_query, start_query. destruct (time_time w) as [t w1]. cbn [snd].
  destruct (run chat read_sql schema_context q 3 w1) as [[r w2] l]. cbn [fst snd].
  set (mon1 := mkMonitor (max_history mon) (query_metrics mon) (Some t)).
  assert (Hfail : exists mon' w' m,
             (let '(_, mon2, w3) :=
                end_query zero elapsed_ms time_time now_isoformat mon1 "" 0 false w2 in
              (mon2, w3, l)) = (mon', w', l)
             /\ current_query_start mon' = None
             /\ max_history mon' = max_history mon
             /\ query_metrics mon' = deque_append (max_history mon) (query_metrics mon) m
             /\ success m = false /\ query m = "" /\ rows_returned m = 0%Z
             /\ query_length m = 0).
  { rewrite (end_query_started mon1 t "" 0 false w2 eq_refl).
    destruct (new_metric_fields t "" 0 false w2) as (m & w3 & -> & H1 & H2 & H3 & H4).
    exists (mkMonitor (max_history mon1)
                      (deque_append (max_history mon1) (query_metrics mon1) m) None), w3, m.
    cbn [fst snd]. auto 10. }
  repeat match goal with
         | |- context [match ?x with _ => _ end] => is_var x; destruct x
         end; try exact Hfail.
  clear Hfail.
  rewrite (end_query_started mon1 t _ _ true w2 eq_refl).
  destruct (new_metric_fields t s (len df) true w2) as (m & w3 & -> & H1 & H2 & H3 & H4).
  cbn [fst snd].
  set (mon2 := mkMonitor (max_history mon1)
                         (deque_append (max_history mon1) (query_metrics mon1) m) None).
  exists mon2, (snd (present q s df (execution_time_ms m) w3)), m.
  split; [|auto 10].
  destruct (present q s df (execution_time_ms m) w3) as [[e | u] w4]; [|reflexivity].
  rewrite end_query_idle by reflexivity. reflexivity.
Qed.

Lemma run_query_once_shape (q : string) (mon : monitor Float) (w : World) :
  exists mon' w', query_run q mon w = (mon', w', snd (agent_run q w)).
Proof.
  unfold run_query, start_query. destruct (time_time w) as [t w1]. cbn [snd].
  destruct (run chat read_sql schema_context q 3 w1) as [[r w2] l]. cbn [snd].
  repeat match goal with
         | |- context [match ?x with _ => _ end] => is_var x; destruct x
         end;
    repeat match goal with
           | |- context [end_query ?z ?e ?t ?n ?m ?s ?k ?b ?w] =>
               destruct (end_query z e t n m s k b w) as [[? ?] ?]
           | |- context [present ?a ?b ?c ?d ?w] =>
               destruct (present a b c d w) as [[? | ?] ?]
           end; eauto.
Qed.

(** [run_query] always runs the agent with a budget of three attempts: a
    question costs at most three calls of the generator and three of the
    executor. *)
Theorem run_query_budget (q : string) (mon : monitor Float) (w : World) :
  exists mon' w' l,
    query_run q mon w = (mon', w', l)
    /\ attempts_made l <= 3
    /\ generator_calls l <= 3
    /\ executor_calls l <= 3.
Proof.
  destruct (run_query_once_shape q mon w) as (mon' & w' & E).
  exists mon', w', (snd (agent_run q w)). split; [exact E|].
  destruct (agent_run q w) as [[r w2] l] eqn:R. cbn [snd].
  apply (run_inv _ chat read_sql schema_context) in R as (m' & L & _).
  pose proof (attempts_within_range _ chat read_sql schema_context _ _ _ _ _ _ _ L) as Hlen.
  rewrite range_length in Hlen.
  pose proof (loop_attempts _ chat read_sql schema_context _ _ _ _ _ _ _ L) as [Hgen _].
  pose proof (loop_executor_calls _ chat read_sql schema_context _ _ _ _ _ _ _ L) as Hexec.
  change (Z.to_nat 3) with 3 in Hlen. lia.
Qed.

End MonitorFacts.

(** A fence that is never closed stays in the query: an ASCII reply that
    starts with a fence and has no second one is not unwrapped, so the text
    handed on still begins with the fence and its tag. *)
Theorem unclosed_fence_is_kept (body : string) :
  Str.isascii body = true ->
  Str.contains FENCE body = false ->
  (forall separator,
      In separator SEPARATORS -> Str.contains separator (FENCE ++ body) = false) ->
  _extract_sql (FENCE ++ body) = FENCE ++ Str.rstrip body.
Proof.
  intros _ Hf Hm. rewrite ExtractFacts.extract_steps. unfold extract_described.
  assert (E : Str.strip (FENCE ++ body) = FENCE ++ Str.rstrip body)
    by (unfold Str.strip; rewrite StripFacts.lstrip_noop by reflexivity;
        apply RoundTripFacts.rstrip_fence).
  assert (Hr : Str.contains FENCE (Str.rstrip body) = false).
  { destruct (Str.contains FENCE (Str.rstrip body)) eqn:C; [|reflexivity].
    apply ExtractFacts.contains_rstrip in C. congruence. }
  assert (B : first_fenced_block (FENCE ++ Str.rstrip body) = None).
  { unfold first_fenced_block.
    destruct (RoundTripFacts.first_fence_at "" (Str.rstrip body) eq_refl) as [_ A].
    cbn [append] in A. change ("" ++ FENCE ++ Str.rstrip body)
      with (FENCE ++ Str.rstrip body) in A. rewrite A.
    apply FenceFacts.fence_body_none.
    destruct (Str.contains FENCE (skip_tag (Str.rstrip body))) eqn:C; [|reflexivity].
    apply FenceFacts.contains_fence_skip_tag in C. congruence. }
  rewrite E, B, <- E, StripFacts.strip_idempotent.
  rewrite ExtractFacts.before_markers_absent.
  - apply StripFacts.strip_idempotent.
  - intros sep Hin. apply ExtractFacts.not_contains_strip. auto.
Qed.

(* ------------------------------------------------------------------------- *)
(** * Facts about [handle_command] *)
(* ------------------------------------------------------------------------- *)

Section CommandFacts.

Variable int_of : string -> string + Z.

Lemma nth_error_length_not_1 {A} (l : list A) (p : A) :
  nth_error l 1 = Some p -> (length l =? 1)%nat = false.
Proof. destruct l as [|a [|b l]]; try discriminate. reflexivity. Qed.

(** An ASCII input whose lower-cased, stripped text begins with [history]
    and whose second word is not a number makes [handle_command] return
    [True] without calling any method: nothing is shown, and the caller does
    not run the input as a question. *)
Theorem history_prefix_swallows_question (command p : string) :
  Str.isascii command = true ->
  Str.startswith "history" (Str.strip (Text.lower command)) = true ->
  nth_error (Text.split command) 1 = Some p ->
  Text.isdigit p = false ->
  handle_command int_of command = inr (ReplyTrue, None).
Proof.
  intros _ H Hp Hd. unfold handle_command.
  remember (Str.strip (Text.lower command)) as cmd_lower eqn:C. clear C.
  assert (E1 : Text.is_in cmd_lower ["exit"; "quit"; "q"] = false)
    by (destruct (StrFacts.startswith_inv _ _ H) as [post ->]; reflexivity).
  assert (E2 : Text.is_in cmd_lower ["help"; "?"] = false)
    by (destruct (StrFacts.startswith_inv _ _ H) as [post ->]; reflexivity).
  assert (E3 : String.eqb cmd_lower "refresh" = false)
    by (destruct (StrFacts.startswith_inv _ _ H) as [post ->]; reflexivity).
  rewrite E1, E2, E3, H, (nth_error_length_not_1 _ _ Hp).
  unfold item. rewrite Hp, Hd. reflexivity.
Qed.

(** An ASCII input that begins with [favorite ] or [replay ] (in any letter
    case) but does not consist of exactly two words is no command:
    [handle_command] calls nothing and returns [False], so the caller runs it
    as a question. *)
Theorem malformed_favorite_is_a_question (command : string) :
  Str.isascii command = true ->
  Str.startswith "favorite " (Str.strip (Text.lower command)) = true
  \/ Str.startswith "replay " (Str.strip (Text.lower command)) = true ->
  length (Text.split command) <> 2 ->
  handle_command int_of command = inr (ReplyFalse, None).
Proof.
  intros _ H Hn. unfold handle_command.
  apply Nat.eqb_neq in Hn. rewrite Hn, !andb_false_r.
  destruct H as [H|H]; destruct (StrFacts.startswith_inv _ _ H) as [post ->]; reflexivity.
Qed.

End CommandFacts.

(* ------------------------------------------------------------------------- *)
(** * More concrete runs *)
(* ------------------------------------------------------------------------- *)

Module MoreRuns.

Import Script.

(** Attempt 1 fails in execution, attempt 2 in generation: the request of
    attempt 3 is built from the query of attempt 1 and the error of
    attempt 2. *)
Lemma request_follows_latest_failure_witness :
  exists r w' pre prompt post,
    Script.run SCHEMA QUESTION 3
               (mkWorld [inr "SELECT a FROM orders"; inl "read timeout"; inr "SELECT 1"]
                        [inl "Invalid column name 'a'"; inr one_row])
    = (r, w',
       (pre ++ EvGenerate (Some "SELECT a FROM orders") (Some "read timeout") prompt
                          (inr "SELECT 1") :: post)%list)
    /\ last_generated pre = Some "SELECT a FROM orders"
    /\ last_failure pre = Some "read timeout"
    /\ prompt = _build_healing_prompt SCHEMA QUESTION "SELECT a FROM orders" "read timeout".
Proof.
  set (w := mkWorld [inr "SELECT a FROM orders"; inl "read timeout"; inr "SELECT 1"]
                    [inl "Invalid column name 'a'"; inr one_row]).
  set (h := _build_healing_prompt SCHEMA QUESTION "SELECT a FROM orders"
                                  "SQL Error: Invalid column name 'a'").
  set (pre := [EvAttempt 1; EvGenerate None None INITIAL (inr "SELECT a FROM orders");
               EvExecute "SELECT a FROM orders" (inl "SQL Error: Invalid column name 'a'");
               EvAttempt 2;
               EvGenerate (Some "SELECT a FROM orders")
                          (Some "SQL Error: Invalid column name 'a'") h (inl "read timeout");
               EvAttempt 3]).
  set (prompt := _build_healing_prompt SCHEMA QUESTION "SELECT a FROM orders" "read timeout").
  assert (R : Script.run SCHEMA QUESTION 3 w
              = (inr (PyTuple [PyDF one_row; PyStr "SELECT 1"]), mkWorld [] [],
                 (pre ++ EvGenerate (Some "SELECT a FROM orders") (Some "read timeout")
                                    prompt (inr "SELECT 1")
                      :: [EvExecute "SELECT 1" (inr one_row)])%list))
    by (vm_compute; reflexivity).
  destruct (request_follows_latest_failure _ Script.chat Script.read_sql SCHEMA QUESTION 3 w
              _ _ _ pre _ _ prompt _ _ R eq_refl) as (Hp & He & Hprompt).
  exists (inr (PyTuple [PyDF one_row; PyStr "SELECT 1"])), (mkWorld [] []), pre, prompt,
    [EvExecute "SELECT 1" (inr one_row)].
  split; [exact R|]. split; [symmetry; exact Hp|]. split; [symmetry; exact He|].
  exact Hprompt.
Defined.

Lemma executed_as_generated_witness :
  exists result rest,
    [EvExecute "SELECT 1" (inr one_row)] = EvExecute "SELECT 1" result :: rest.
Proof.
  destruct (executed_as_generated _ Script.chat Script.read_sql SCHEMA QUESTION 3
              (mkWorld [inr "SELECT 1"] [inr one_row])
              (inr (PyTuple [PyDF one_row; PyStr "SELECT 1"])) (mkWorld [] [])
              [EvAttempt 1; EvGenerate None None INITIAL (inr "SELECT 1");
               EvExecute "SELECT 1" (inr one_row)]) as [H _].
  - vm_compute. reflexivity.
  - destruct (H [EvAttempt 1] None None INITIAL "SELECT 1"
                [EvExecute "SELECT 1" (inr one_row)] eq_refl) as [Hok _].
    apply Hok. reflexivity.
Defined.

Lemma returned_query_is_safe_witness : validate_sql_safety "SELECT 1" = inr true.
Proof.
  destruct (returned_query_is_safe _ Script.chat Script.read_sql SCHEMA QUESTION 3
              (mkWorld [inr "SELECT 1"] [inr one_row]) one_row "SELECT 1" (mkWorld [] [])
              [EvAttempt 1; EvGenerate None None INITIAL (inr "SELECT 1");
               EvExecute "SELECT 1" (inr one_row)]) as [H _].
  - vm_compute. reflexivity.
  - exact H.
Defined.

(** A run that succeeds on attempt 2 of 2 is the same run under a budget
    of 5. *)
Lemma larger_budget_same_run_witness :
  (2 <= 5)%Z
  /\ Script.run SCHEMA QUESTION 5
                (mkWorld [inr "SELECT a FROM orders"; inr "SELECT 1"]
                         [inl "Invalid column name 'a'"; inr one_row])
     = Script.run SCHEMA QUESTION 2
                  (mkWorld [inr "SELECT a FROM orders"; inr "SELECT 1"]
                           [inl "Invalid column name 'a'"; inr one_row]).
Proof.
  split; [lia|].
  set (w := mkWorld [inr "SELECT a FROM orders"; inr "SELECT 1"]
                    [inl "Invalid column name 'a'"; inr one_row]).
  destruct (Script.run SCHEMA QUESTION 2 w) as [[r w'] l] eqn:R.
  apply (larger_budget_same_run _ Script.chat Script.read_sql SCHEMA QUESTION 2 5 w r w' l).
  - lia.
  - exact R.
  - right. exists one_row, "SELECT 1". vm_compute in R.
    injection R as <- _ _. reflexivity.
Defined.

Lemma every_request_carries_context_witness :
  Str.contains (fmt SCHEMA) INITIAL = true /\ Str.contains QUESTION INITIAL = true.
Proof.
  destruct (every_request_carries_context _ Script.chat Script.read_sql SCHEMA QUESTION 3
              (mkWorld [inr "SELECT 1"] [inr one_row])
              (inr (PyTuple [PyDF one_row; PyStr "SELECT 1"])) (mkWorld [] [])
              [EvAttempt 1; EvGenerate None None INITIAL (inr "SELECT 1");
               EvExecute "SELECT 1" (inr one_row)]
              None None INITIAL (inr "SELECT 1")) as (H1 & H2 & _).
  - vm_compute. reflexivity.
  - simpl. auto.
  - split; [exact H1 | exact H2].
Defined.

Lemma plain_reply_is_kept_witness :
  _extract_sql ("  SELECT TOP 5 * FROM orders o;" ++ NL) = "SELECT TOP 5 * FROM orders o;".
Proof.
  rewrite plain_reply_is_kept.
  - reflexivity.
  - reflexivity.
  - reflexivity.
  - intros separator [<- | [<- | [<- | []]]]; reflexivity.
Defined.

Lemma fenced_reply_round_trip_witness :
  _extract_sql ("Here is the `orders` query:" ++ NL ++ FENCE ++ "SQL" ++ NL
                ++ "SELECT TOP 5 * FROM orders o" ++ NL ++ FENCE ++ NL
                ++ NL ++ "This query lists five orders.")
  = "SELECT TOP 5 * FROM orders o".
Proof.
  apply (fenced_reply_round_trip ("Here is the `orders` query:" ++ NL) "SQL"
           "SELECT TOP 5 * FROM orders o"
           (NL ++ NL ++ "This query lists five orders.")).
  - reflexivity.
  - reflexivity.
  - right. reflexivity.
  - reflexivity.
  - reflexivity.
  - intros separator [<- | [<- | [<- | []]]]; reflexivity.
Defined.

Lemma unclosed_fence_is_kept_witness :
  _extract_sql (FENCE ++ "sql" ++ NL ++ "SELECT TOP 5 * FROM orders o" ++ NL)
  = FENCE ++ "sql" ++ NL ++ "SELECT TOP 5 * FROM orders o".
Proof.
  rewrite unclosed_fence_is_kept.
  - reflexivity.
  - reflexivity.
  - reflexivity.
  - intros separator [<- | [<- | [<- | []]]]; reflexivity.
Defined.

(** A keyword inside an identifier passes, a keyword in a comment does not. *)
Lemma validator_on_ascii_text_witness :
  Str.isascii "SELECT updated_at FROM orders -- drop" = true
  /\ (validate_sql_safety "SELECT updated_at FROM orders -- drop" = inr true
      <-> ~ blocked "SELECT updated_at FROM orders -- drop")
  /\ validate_sql_safety "SELECT updated_at FROM orders -- drop"
     = inl (SafetyViolationError (safety_message "DROP")).
Proof.
  split; [reflexivity|]. split; [|vm_compute; reflexivity].
  apply (validator_on_ascii_text "SELECT updated_at FROM orders -- drop").
  reflexivity.
Defined.

Lemma validator_reads_words_witness :
  Str.isascii "SELECT updated_at FROM dropdown" = true
  /\ words "SELECT updated_at FROM dropdown" = ["SELECT"; "updated_at"; "FROM"; "dropdown"]
  /\ validate_sql_safety "SELECT updated_at FROM dropdown" = inr true.
Proof.
  split; [reflexivity|]. split; [reflexivity|].
  apply (validator_reads_words "SELECT updated_at FROM dropdown"); [reflexivity|].
  intros w [<- | [<- | [<- | [<- | []]]]]; vm_compute;
    intros H; repeat (destruct H as [H | H]; [discriminate H|]); exact H.
Defined.

(** Three queries through a monitor that keeps two entries. *)
Lemma monitor_keeps_last_entries_witness :
  (0 <= 2 <= 2 ^ 63 - 1)%Z
  /\ exists mon mon' w' appended,
      PerformanceMonitor (2 ^ 63 - 1) 2 = inr mon
      /\ monitor_calls 0%Z Ticks.elapsed_ms Ticks.time_time Ticks.now_isoformat
                       [CallStart; CallEnd "SELECT 1" 1 true;
                        CallEnd "" 0 false;
                        CallStart; CallEnd "SELECT 2" 4 true;
                        CallStart; CallEnd "" 0 false]
                       mon 0%Z
         = (mon', w', appended)
      /\ query_metrics mon' = lastn (Z.to_nat 2) appended
      /\ (Z.of_nat (length (query_metrics mon')) <= 2)%Z
      /\ length appended
         <= length (filter is_start
                           [CallStart; CallEnd "SELECT 1" 1 true;
                            CallEnd "" 0 false;
                            CallStart; CallEnd "SELECT 2" 4 true;
                            CallStart; CallEnd "" 0 false]).
Proof.
  split; [lia|].
  apply (monitor_keeps_last_entries Z 0%Z Ticks.elapsed_ms Z (2 ^ 63 - 1)%Z
           Ticks.time_time Ticks.now_isoformat 2). lia.
Defined.

Lemma history_prefix_swallows_question_witness :
  handle_command no_int "History of orders" = inr (ReplyTrue, None).
Proof.
  apply (history_prefix_swallows_question no_int "History of orders" "of");
    reflexivity.
Defined.

Lemma malformed_favorite_is_a_question_witness :
  handle_command no_int "favorite 1 2" = inr (ReplyFalse, None).
Proof.
  apply (malformed_favorite_is_a_question no_int "favorite 1 2");
    [reflexivity | left; reflexivity | cbv; discriminate].
Defined.

End MoreRuns.
